(** * QSF: the classical core of the "quantum symmetry factorization" script

    A shallow embedding of [QSF.py] and the properties its specification
    states about it.  Python integers are unbounded, so they are [Z];
    [%] and [//] are Python's floor remainder and floor division, which
    are exactly [Z.modulo] and [Z.div] for a non-zero divisor.

    The script has three kinds of effect: it draws one random base, it
    prints status lines, and the builtins it calls may raise.  They are
    kept as the code has them, in a small monad over an explicit [world].

    Left out: [QuantumGate], a numpy matrix product over floating-point
    arrays that nothing calls. *)

From Stdlib Require Import ZArith List Lia Bool String Znumtheory.
From Stdlib Require Import DecimalString.
From Equations Require Import Equations.
Import ListNotations.

Local Open Scope string_scope.
Local Open Scope list_scope.
Local Open Scope Z_scope.

(** ** The part of the Python runtime the script uses *)

Module Py.

(** The only exception the builtins used here can raise on integers. *)
Inductive exn : Type :=
| ValueError.

Inductive result (A : Type) : Type :=
| Ok (v : A)
| Raised (e : exn).

Arguments Ok {A} v.
Arguments Raised {A} e.

(** What a run can observe or change outside its local variables: the
    state of the [random] module, as the sequence of raw draws still to
    come with a cursor into it, and the lines written by [print]. *)
Record world : Type := World {
  rng_tape : nat -> Z;
  rng_pos : nat;
  stdout : list string
}.

Definition M (A : Type) : Type := world -> result A * world.

Definition ret {A} (v : A) : M A := fun w => (Ok v, w).

Definition raise {A} (e : exn) : M A := fun w => (Raised e, w).

Definition bind {A B} (m : M A) (k : A -> M B) : M B := fun w =>
  match m w with
  | (Ok v, w') => k v w'
  | (Raised e, w') => (Raised e, w')
  end.

(** The world once [lines] more have been printed, and once one more
    raw draw has been consumed. *)
Definition printed (lines : list string) (w : world) : world :=
  World (rng_tape w) (rng_pos w) (stdout w ++ lines).

Definition drawn (w : world) : world :=
  World (rng_tape w) (S (rng_pos w)) (stdout w).

Definition print (line : string) : M unit := fun w =>
  (Ok tt, printed [line] w).

(** [str(n)] for an integer, as f-strings format it. *)
Definition str (n : Z) : string := NilZero.string_of_int (Z.to_int n).

(** [str] of a pair of integers. *)
Definition str_pair (p : Z * Z) : string :=
  ("(" ++ str (fst p) ++ ", " ++ str (snd p) ++ ")")%string.

(** [range(lo, hi)]: the integers [lo, lo+1, ..., hi-1], empty when
    [hi <= lo]. *)
Definition range (lo hi : Z) : list Z :=
  map (fun i => lo + Z.of_nat i) (seq 0 (Z.to_nat (hi - lo))).

(** The inverse of [a] modulo [m] that three-argument [pow] uses for a
    negative exponent: the residue [i] in [0, |m|) with [a * i = 1]
    modulo [m], when there is one. *)
Definition invmod (a m : Z) : option Z :=
  find (fun i => (a * i) mod m =? 1 mod m) (range 0 (Z.abs m)).

(** [pow(a, e, m)] on integers: [ValueError] for a zero modulus or a
    base that is not invertible when the exponent is negative,
    otherwise [a ^ e] reduced modulo [m] (with the sign of [m]). *)
Definition pow (a e m : Z) : M Z :=
  if m =? 0 then raise ValueError
  else if e <? 0 then
    match invmod a m with
    | Some i => ret ((i ^ (- e)) mod m)
    | None => raise ValueError
    end
  else ret ((a ^ e) mod m).

(** [random.randint(lo, hi)]: [ValueError] on an empty range, otherwise
    the next raw draw folded into [lo, hi].  Every value of the range
    is produced by some tape, and nothing outside it by any. *)
Definition randint (lo hi : Z) : M Z := fun w =>
  if hi <? lo then (Raised ValueError, w)
  else (Ok (lo + rng_tape w (rng_pos w) mod (hi - lo + 1)), drawn w).

(** [math.gcd], which the script imports: the non-negative greatest
    common divisor. *)
Definition math_gcd (a b : Z) : Z := Z.gcd a b.

(** Truth value of an [Optional[int]]: [None] and [0] are false. *)
Definition truthy (v : option Z) : bool :=
  match v with
  | Some n => negb (n =? 0)
  | None => false
  end.

End Py.

Import Py.

Declare Scope py_scope.
Delimit Scope py_scope with py.
Notation "x <- m ;; k" := (bind m (fun x => k))
  (at level 100, m at next level, right associativity) : py_scope.
Notation "m ;; k" := (bind m (fun _ => k))
  (at level 100, right associativity) : py_scope.
Local Open Scope py_scope.

(** An object that can stand as the [quantum_computer] attribute: all
    the engine asks of it is a [run_quantum_circuit] method. *)
Class QuantumComputer (Q : Type) : Type :=
  run_quantum_circuit : Q -> Z -> Z -> M (option Z).

(** ** class qsfQuantumComputer *)

Module qsfQuantumComputer.

Record t : Type := new { qubit_count : Z }.

(** The body of the [for r in range(1, N)] loop of
    [simulate_period_finding], over the values of [r] still to try. *)
Fixpoint period_loop (a N : Z) (rs : list Z) : M (option Z) :=
  match rs with
  | [] => ret None
  | r :: rest =>
      x <- pow a r N ;;
      if x =? 1 then
        print ("[QSF] Estimated period (r) found: " ++ str r)%string ;;
        ret (Some r)
      else period_loop a N rest
  end.

Definition simulate_period_finding (self : t) (a N : Z) : M (option Z) :=
  period_loop a N (range 1 N).

Definition run_quantum_circuit (self : t) (a N : Z) : M (option Z) :=
  print ("[QSF] Running quantum circuit with " ++ str (qubit_count self)
         ++ " qubits.")%string ;;
  r <- simulate_period_finding self a N ;;
  ret r.

(** The mock error correction: one printed line, the state handed
    back as it came. *)
Definition apply_error_correction {A : Type} (self : t) (state : A) : M A :=
  print "[QSF] Applying error correction." ;;
  ret state.

End qsfQuantumComputer.

#[export] Instance qsf_computer : QuantumComputer qsfQuantumComputer.t :=
  qsfQuantumComputer.run_quantum_circuit.

(** ** class QuantumSymmetryFactorization *)

Module QuantumSymmetryFactorization.

(** The engine holds the quantum computer it was constructed with. *)
Record t (Q : Type) : Type := new { quantum_computer : Q }.

Arguments new {Q} quantum_computer.
Arguments quantum_computer {Q} self : rename.

(** [while b != 0: a, b = b, a % b] followed by [return a].  The loop
    is not structural; it terminates because each pass replaces [b] by
    a remainder of strictly smaller absolute value. *)
Equations? gcd (a b : Z) : Z by wf (Z.abs_nat b) lt :=
  gcd a b with Z.eq_dec b 0 := {
    | left _ => a
    | right _ => gcd b (a mod b) }.
Proof.
  destruct (Z_lt_ge_dec 0 b) as [Hpos | Hneg].
  - pose proof (Z.mod_pos_bound a b Hpos). lia.
  - assert (Hlt : b < 0) by lia.
    pose proof (Z.mod_neg_bound a b Hlt). lia.
Qed.

(** The same loop cut off after [fuel] tests of its condition: [None]
    says that it was still running then. *)
Fixpoint gcd_within (fuel : nat) (a b : Z) : option Z :=
  match fuel with
  | O => None
  | S fuel' => if b =? 0 then Some a else gcd_within fuel' b (a mod b)
  end.

Section Methods.

Context {Q : Type} `{QuantumComputer Q}.

Definition quantum_period_estimate (self : t Q) (a N : Z) : M (option Z) :=
  run_quantum_circuit (quantum_computer self) a N.

Definition extract_symmetry (self : t Q) (a r N : Z)
  : M (option Z * option Z) :=
  x <- pow a (r / 2) N ;;
  if (x =? 1) || (x =? N - 1) then ret (None, None)
  else
    let factor1 := gcd (x - 1) N in
    let factor2 := gcd (x + 1) N in
    ret (Some factor1, Some factor2).

(** The body of [quantum_symmetry_factor], with the method it reaches
    as [self.extract_symmetry] passed in: Python looks the attribute up
    on [self] when the call happens, so the body is written against
    whatever that lookup yields. *)
Definition quantum_symmetry_factor_via
    (extract : Z -> Z -> Z -> M (option Z * option Z))
    (self : t Q) (N : Z) : M (option (Z * Z)) :=
  a <- randint 2 (N - 1) ;;
  let gcd_value := gcd a N in
  if 1 <? gcd_value then ret (Some (gcd_value, N / gcd_value))
  else
    r <- quantum_period_estimate self a N ;;
    match r with
    | Some r' =>
        if negb (r' mod 2 =? 0) then
          print "[QSF] Failed to find a valid period. Adjusting and retrying." ;;
          ret None
        else
          fs <- extract a r' N ;;
          (* [factor1 and factor2 and factor1 * factor2 == N]: the
             product is formed only once both are known to be
             integers, and non-zero ones. *)
          match fs with
          | (Some factor1, Some factor2) =>
              if truthy (Some factor1) && truthy (Some factor2)
                 && (factor1 * factor2 =? N)
              then ret (Some (factor1, factor2))
              else
                print "[QSF] Factorization failed. Possibly prime or retry needed." ;;
                ret None
          | _ =>
              print "[QSF] Factorization failed. Possibly prime or retry needed." ;;
              ret None
          end
    | None =>
        print "[QSF] Failed to find a valid period. Adjusting and retrying." ;;
        ret None
    end.

Definition quantum_symmetry_factor (self : t Q) (N : Z)
  : M (option (Z * Z)) :=
  quantum_symmetry_factor_via (extract_symmetry self) self N.

End Methods.

End QuantumSymmetryFactorization.

Import QuantumSymmetryFactorization.

(** ** The example driver

    [run_qsf_factorization] constructs a 50-qubit computer and an
    engine around it, makes one attempt and reports it. *)

Definition qsf : qsfQuantumComputer.t := qsfQuantumComputer.new 50.

Definition qsf_algorithm : QuantumSymmetryFactorization.t qsfQuantumComputer.t :=
  QuantumSymmetryFactorization.new qsf.

Definition run_qsf_factorization (N : Z) : M unit :=
  factors <- quantum_symmetry_factor qsf_algorithm N ;;
  match factors with
  | Some fs =>
      print ("Factors of " ++ str N ++ " are: " ++ str_pair fs)%string
  | None => print ("Failed to find factors for " ++ str N ++ ".")%string
  end.

(** A fresh process (nothing printed, nothing drawn) whose generator
    yields [raw] as its raw draws. *)
Definition fresh_world (raw : Z) : world := World (fun _ => raw) 0 [].

(** A stand-in computer that reports not-found whatever it is asked. *)
#[export] Instance never_finds : QuantumComputer unit :=
  fun _ _ _ => ret None.

(** An extractor that refuses an odd order before doing anything. *)
Definition even_order_only {Q : Type} `{QuantumComputer Q}
    (self : QuantumSymmetryFactorization.t Q) (a r N : Z)
  : M (option Z * option Z) :=
  if Z.even r then extract_symmetry self a r N else raise ValueError.

(** * Properties *)

(** ** The runtime *)

Lemma printed_nil (w : world) : printed [] w = w.
Proof. destruct w. unfold printed. cbn. rewrite app_nil_r. reflexivity. Qed.

Lemma printed_printed (l1 l2 : list string) (w : world) :
  printed l2 (printed l1 w) = printed (l1 ++ l2) w.
Proof. unfold printed. cbn. rewrite app_assoc. reflexivity. Qed.

Lemma range_nil (lo hi : Z) : hi <= lo -> range lo hi = [].
Proof.
  intros Hle. unfold range.
  replace (Z.to_nat (hi - lo)) with O by lia. reflexivity.
Qed.

Lemma range_cons (lo hi : Z) :
  lo < hi -> range lo hi = lo :: range (lo + 1) hi.
Proof.
  intros Hlt. unfold range.
  replace (Z.to_nat (hi - lo)) with (S (Z.to_nat (hi - (lo + 1)))) by lia.
  cbn [seq map]. f_equal; [lia |].
  rewrite <- seq_shift, map_map.
  apply map_ext. intros i. lia.
Qed.

(** [find] over a range returns its least element that passes the
    test, or [None] when none does. *)
Lemma find_range (f : Z -> bool) (n : nat) :
  forall lo hi, Z.to_nat (hi - lo) = n ->
  match find f (range lo hi) with
  | Some r => lo <= r < hi /\ f r = true
              /\ forall k, lo <= k < r -> f k = false
  | None => forall k, lo <= k < hi -> f k = false
  end.
Proof.
  induction n as [| n IH]; intros lo hi Hn.
  - rewrite range_nil by lia. cbn. intros k Hk. lia.
  - rewrite range_cons by lia. cbn [find].
    destruct (f lo) eqn:Hf.
    + repeat split; try lia; auto; intros k Hk; lia.
    + specialize (IH (lo + 1) hi ltac:(lia)).
      destruct (find f (range (lo + 1) hi)) as [r |].
      * destruct IH as (Hr & Hfr & Hmin).
        repeat split; try lia; auto.
        intros k Hk. destruct (Z.eq_dec k lo) as [-> | Hne]; auto.
        apply Hmin. lia.
      * intros k Hk. destruct (Z.eq_dec k lo) as [-> | Hne]; auto.
        apply IH. lia.
Qed.

Lemma range_bounds (lo hi r : Z) : In r (range lo hi) -> lo <= r < hi.
Proof.
  unfold range. rewrite in_map_iff. intros (i & <- & Hi).
  apply in_seq in Hi. lia.
Qed.

Lemma pow_nonneg (a e m : Z) (w : world) :
  m <> 0 -> 0 <= e -> pow a e m w = (Ok ((a ^ e) mod m), w).
Proof.
  intros Hm He. unfold pow.
  apply Z.eqb_neq in Hm. rewrite Hm.
  apply Z.ltb_ge in He. rewrite He. reflexivity.
Qed.

(** [pow] neither reads nor changes the world. *)
Lemma pow_pure (a e m : Z) :
  exists res, forall w, pow a e m w = (res, w).
Proof.
  unfold pow.
  destruct (m =? 0); [eexists; intros; reflexivity |].
  destruct (e <? 0); [| eexists; intros; reflexivity].
  destruct (invmod a m); eexists; intros; reflexivity.
Qed.

(** Whatever the exponent, a value returned for a positive modulus is
    a residue of it. *)
Lemma pow_residue (a e m x : Z) (w w' : world) :
  0 < m -> pow a e m w = (Ok x, w') -> 0 <= x < m /\ w' = w.
Proof.
  intros Hm. unfold pow, ret, raise.
  destruct (m =? 0); [discriminate |].
  destruct (e <? 0).
  - destruct (invmod a m); [| discriminate].
    intros [= <- <-]. split; [apply Z.mod_pos_bound |]; auto.
  - intros [= <- <-]. split; [apply Z.mod_pos_bound |]; auto.
Qed.

Lemma randint_range (lo hi a : Z) (w w1 : world) :
  randint lo hi w = (Ok a, w1) -> lo <= a <= hi /\ w1 = drawn w.
Proof.
  unfold randint. destruct (Z.ltb_spec hi lo) as [Hlt | Hle]; [discriminate |].
  intros [= <- <-].
  pose proof (Z.mod_pos_bound (rng_tape w (rng_pos w)) (hi - lo + 1) ltac:(lia)).
  split; [lia | reflexivity].
Qed.

Lemma randint_empty (lo hi : Z) (w : world) :
  hi < lo -> randint lo hi w = (Raised ValueError, w).
Proof.
  intros Hlt. unfold randint.
  apply Z.ltb_lt in Hlt. rewrite Hlt. reflexivity.
Qed.

(** Every value of a non-empty range is the draw of some tape. *)
Lemma randint_any (lo hi a : Z) (pos : nat) (out : list string) :
  lo <= a <= hi ->
  randint lo hi (World (fun _ => a - lo) pos out)
  = (Ok a, World (fun _ => a - lo) (S pos) out).
Proof.
  intros Ha. unfold randint, drawn. cbn.
  destruct (Z.ltb_spec hi lo) as [Hlt | Hle]; [lia |].
  rewrite Z.mod_small by lia. repeat f_equal. lia.
Qed.


(** ** The Euclidean loop *)

Lemma gcd_unfold (a b : Z) :
  gcd a b = if b =? 0 then a else gcd b (a mod b).
Proof.
  rewrite gcd_equation_1.
  destruct (Z.eq_dec b 0) as [Hb | Hb]; simp gcd.
  - subst b. reflexivity.
  - apply Z.eqb_neq in Hb. rewrite Hb. reflexivity.
Qed.

Lemma gcd_zero_r (a : Z) : gcd a 0 = a.
Proof. rewrite gcd_unfold. reflexivity. Qed.

Lemma gcd_step (a b : Z) : b <> 0 -> gcd a b = gcd b (a mod b).
Proof.
  intros Hb. rewrite gcd_unfold.
  apply Z.eqb_neq in Hb. rewrite Hb. reflexivity.
Qed.

(** On non-negative arguments the loop computes [Z.gcd]: strong
    induction on the second argument, which the loop shrinks. *)
Lemma gcd_nonneg_Zgcd :
  forall b, 0 <= b -> forall a, 0 <= a -> gcd a b = Z.gcd a b.
Proof.
  apply (Zlt_0_ind (fun n => forall a, 0 <= a -> gcd a n = Z.gcd a n)).
  intros b IH Hb a Ha.
  destruct (Z.eq_dec b 0) as [-> | Hnz].
  - rewrite gcd_zero_r, Z.gcd_0_r, Z.abs_eq; auto.
  - rewrite gcd_step by assumption.
    pose proof (Z.mod_pos_bound a b ltac:(lia)) as Hm.
    rewrite IH by lia.
    rewrite Z.gcd_mod_r. apply Z.gcd_comm.
Qed.

(** A positive second argument is enough: after one pass both
    variables are non-negative. *)
Lemma gcd_pos_Zgcd (a b : Z) : 0 < b -> gcd a b = Z.gcd a b.
Proof.
  intros Hb. rewrite gcd_step by lia.
  pose proof (Z.mod_pos_bound a b Hb) as Hm.
  rewrite gcd_nonneg_Zgcd by lia.
  rewrite Z.gcd_mod_r. apply Z.gcd_comm.
Qed.

Lemma gcd_within_more (fuel : nat) :
  forall a b g, gcd_within fuel a b = Some g -> gcd_within (S fuel) a b = Some g.
Proof.
  induction fuel as [| fuel IH]; intros a b g Hg.
  - discriminate.
  - cbn [gcd_within] in Hg |- *.
    destruct (b =? 0); [assumption |].
    apply IH in Hg. exact Hg.
Qed.

Lemma gcd_within_mono (n m : nat) (a b g : Z) :
  (n <= m)%nat -> gcd_within n a b = Some g -> gcd_within m a b = Some g.
Proof.
  induction 1 as [| m Hle IH]; intros Hg.
  - exact Hg.
  - apply gcd_within_more, IH, Hg.
Qed.

Lemma gcd_within_sound (fuel : nat) :
  forall a b g, gcd_within fuel a b = Some g -> g = gcd a b.
Proof.
  induction fuel as [| fuel IH]; intros a b g Hg.
  - discriminate.
  - cbn [gcd_within] in Hg. rewrite gcd_unfold.
    destruct (b =? 0).
    + congruence.
    + apply IH. exact Hg.
Qed.

(** [b + 1] tests of the loop condition are enough when [b >= 0]. *)
Lemma gcd_within_enough :
  forall b, 0 <= b -> forall a, gcd_within (S (Z.to_nat b)) a b = Some (gcd a b).
Proof.
  apply (Zlt_0_ind (fun n => forall a,
           gcd_within (S (Z.to_nat n)) a n = Some (gcd a n))).
  intros b IH Hb a.
  cbn [gcd_within]. rewrite (gcd_unfold a b).
  destruct (Z.eqb_spec b 0) as [-> | Hnz]; [reflexivity |].
  pose proof (Z.mod_pos_bound a b ltac:(lia)) as Hm.
  apply (gcd_within_mono (S (Z.to_nat (a mod b)))); [lia |].
  apply IH. lia.
Qed.

(** ** The order finder *)

(** The loop is a [find] over the candidates, plus one printed line
    when it succeeds; [pow] cannot raise on a candidate of the range. *)
Lemma period_loop_run (a N : Z) (rs : list Z) :
  N <> 0 -> (forall r, In r rs -> 0 <= r) ->
  forall w,
  qsfQuantumComputer.period_loop a N rs w =
  match find (fun r => a ^ r mod N =? 1) rs with
  | Some r =>
      (Ok (Some r),
       printed [("[QSF] Estimated period (r) found: " ++ str r)%string] w)
  | None => (Ok None, w)
  end.
Proof.
  intros HN. induction rs as [| r rest IH]; intros Hrs w.
  - reflexivity.
  - cbn [qsfQuantumComputer.period_loop find]. unfold bind at 1.
    rewrite pow_nonneg by (auto; apply Hrs; left; reflexivity).
    destruct (a ^ r mod N =? 1).
    + reflexivity.
    + apply IH. intros k Hk. apply Hrs. right. exact Hk.
Qed.

Lemma simulate_period_finding_run (self : qsfQuantumComputer.t) (a N : Z)
    (w : world) :
  qsfQuantumComputer.simulate_period_finding self a N w =
  match find (fun r => a ^ r mod N =? 1) (range 1 N) with
  | Some r =>
      (Ok (Some r),
       printed [("[QSF] Estimated period (r) found: " ++ str r)%string] w)
  | None => (Ok None, w)
  end.
Proof.
  unfold qsfQuantumComputer.simulate_period_finding.
  destruct (Z_le_gt_dec N 1) as [Hsmall | Hbig].
  - rewrite range_nil by lia. reflexivity.
  - apply period_loop_run; [lia |].
    intros r Hr. apply range_bounds in Hr. lia.
Qed.

(** C2: for every base [a] and modulus [N >= 2],
    [simulate_period_finding(a, N)] returns the smallest [r] of
    [1 .. N-1] with [a^r mod N = 1] when there is one and [None] when
    there is none; whatever [r] it returns satisfies [a^r mod N = 1]
    and no smaller positive integer does (so also for coprime [a], [N]). *)
Theorem simulate_period_finding_least (self : qsfQuantumComputer.t)
    (a N : Z) (w : world) :
  2 <= N ->
  (forall r, 1 <= r < N -> a ^ r mod N = 1 ->
     (forall k, 1 <= k < r -> a ^ k mod N <> 1) ->
     fst (qsfQuantumComputer.simulate_period_finding self a N w)
     = Ok (Some r))
  /\ ((forall r, 1 <= r < N -> a ^ r mod N <> 1) ->
      fst (qsfQuantumComputer.simulate_period_finding self a N w) = Ok None)
  /\ (forall r,
      fst (qsfQuantumComputer.simulate_period_finding self a N w)
      = Ok (Some r) ->
      1 <= r < N /\ a ^ r mod N = 1
      /\ forall k, 0 < k -> a ^ k mod N = 1 -> r <= k).
Proof.
  intros HN. rewrite simulate_period_finding_run.
  pose proof (find_range (fun r => a ^ r mod N =? 1) _ 1 N eq_refl) as Hfind.
  destruct (find (fun r => a ^ r mod N =? 1) (range 1 N)) as [r0 |]; cbn [fst].
  - destruct Hfind as (Hr0 & Hhit & Hleast).
    apply Z.eqb_eq in Hhit.
    split; [| split].
    + intros r Hr Hone Hmin.
      destruct (Z.lt_trichotomy r r0) as [Hlt | [-> | Hgt]].
      * specialize (Hleast r ltac:(lia)). apply Z.eqb_neq in Hleast. tauto.
      * reflexivity.
      * exfalso. apply (Hmin r0); [lia | exact Hhit].
    + intros Hnone. exfalso. apply (Hnone r0 Hr0 Hhit).
    + intros r [= <-]. repeat split; try lia; auto.
      intros k Hk Hone.
      destruct (Z_lt_ge_dec k r0) as [Hlt | Hge]; [| lia].
      specialize (Hleast k ltac:(lia)). apply Z.eqb_neq in Hleast. tauto.
  - split; [| split].
    + intros r Hr Hone _. specialize (Hfind r Hr).
      apply Z.eqb_neq in Hfind. tauto.
    + reflexivity.
    + intros r Hr. discriminate.
Qed.

(** ** The factor extractor *)

Section Extractor.

Context {Q : Type} `{QuantumComputer Q}.

(** For a non-negative order and a non-zero modulus the extractor
    raises nothing and leaves the world alone. *)
Lemma extract_symmetry_run (self : t Q) (a r N : Z) (w : world) :
  N <> 0 -> 0 <= r ->
  extract_symmetry self a r N w =
  (Ok (if (a ^ (r / 2) mod N =? 1) || (a ^ (r / 2) mod N =? N - 1)
       then (None, None)
       else (Some (gcd (a ^ (r / 2) mod N - 1) N),
             Some (gcd (a ^ (r / 2) mod N + 1) N))), w).
Proof.
  intros HN Hr. unfold extract_symmetry, bind.
  rewrite pow_nonneg by (auto; apply Z.div_pos; lia).
  destruct ((a ^ (r / 2) mod N =? 1) || (a ^ (r / 2) mod N =? N - 1));
    reflexivity.
Qed.

(** C3: for every base [a], even order [r] and modulus [N >= 2], with
    [x = a^(r/2) mod N], [extract_symmetry(a, r, N)] returns the
    no-factors value [(None, None)] exactly when [x = 1] or [x = N-1],
    and otherwise the pair [(gcd(x-1, N), gcd(x+1, N))]. *)
Theorem extract_symmetry_spec (self : t Q) (a r N : Z) (w : world) :
  2 <= N -> 0 <= r -> Z.even r = true ->
  let x := a ^ (r / 2) mod N in
  (extract_symmetry self a r N w = (Ok (None, None), w)
   <-> x = 1 \/ x = N - 1)
  /\ (~ (x = 1 \/ x = N - 1) ->
      extract_symmetry self a r N w
      = (Ok (Some (Z.gcd (x - 1) N), Some (Z.gcd (x + 1) N)), w)).
Proof.
  intros HN Hr Heven x.
  rewrite extract_symmetry_run by lia. fold x.
  rewrite !gcd_pos_Zgcd by lia.
  destruct (Z.eqb_spec x 1) as [H1 | H1];
    destruct (Z.eqb_spec x (N - 1)) as [H2 | H2]; cbn [orb];
    (split; [split |]); auto; try tauto; try discriminate.
Qed.

End Extractor.

(** ** The orchestrator *)

(** Facts about [Z.gcd] against the modulus that the verification
    step relies on. *)
Lemma Zgcd_pred_lt_modulus (x N : Z) :
  1 < N -> 0 <= x < N -> x <> 1 -> 0 < Z.gcd (x - 1) N < N.
Proof.
  intros HN Hx Hne.
  pose proof (Z.gcd_nonneg (x - 1) N) as Hnn.
  pose proof (Z.gcd_divide_l (x - 1) N) as [k Hk].
  pose proof (Z.gcd_divide_r (x - 1) N) as Hr.
  apply Z.divide_pos_le in Hr; [| lia].
  assert (Hnz : Z.gcd (x - 1) N <> 0).
  { intros Hz. apply Z.gcd_eq_0_r in Hz. lia. }
  assert (HneN : Z.gcd (x - 1) N <> N).
  { intros HeqN. rewrite HeqN in Hk.
    assert (Hk0 : k = 0 \/ k = 1) by nia.
    destruct Hk0 as [-> | ->]; lia. }
  lia.
Qed.

Lemma Zgcd_succ_lt_modulus (x N : Z) :
  1 < N -> 0 <= x < N -> x <> N - 1 -> 0 < Z.gcd (x + 1) N < N.
Proof.
  intros HN Hx Hne.
  pose proof (Z.gcd_nonneg (x + 1) N) as Hnn.
  pose proof (Z.gcd_divide_l (x + 1) N) as [k Hk].
  pose proof (Z.gcd_divide_r (x + 1) N) as Hr.
  apply Z.divide_pos_le in Hr; [| lia].
  assert (Hnz : Z.gcd (x + 1) N <> 0).
  { intros Hz. apply Z.gcd_eq_0_r in Hz. lia. }
  assert (HneN : Z.gcd (x + 1) N <> N).
  { intros HeqN. rewrite HeqN in Hk.
    assert (Hk0 : k = 0 \/ k = 1) by nia.
    destruct Hk0 as [-> | ->]; lia. }
  lia.
Qed.

(** A common divisor found by the shortcut splits [N] properly. *)
Lemma Zgcd_base_splits (a N : Z) :
  2 <= a <= N - 1 -> 1 < Z.gcd a N ->
  Z.gcd a N * (N / Z.gcd a N) = N
  /\ 1 < Z.gcd a N < N /\ 1 < N / Z.gcd a N < N.
Proof.
  intros Ha Hg.
  pose proof (Z.gcd_divide_l a N) as Hl.
  pose proof (Z.gcd_divide_r a N) as Hr.
  apply Z.divide_pos_le in Hl; [| lia].
  assert (Hmul : Z.gcd a N * (N / Z.gcd a N) = N).
  { destruct Hr as [k Hk]. rewrite Hk at 2.
    rewrite Z.div_mul by lia. lia. }
  set (g := Z.gcd a N) in *. clearbody g.
  set (q := N / g) in *. clearbody q.
  assert (Hq : 0 < q) by nia.
  assert (Hq1 : q <> 1) by nia.
  repeat split; try lia; nia.
Qed.

Section Orchestrator.

Context {Q : Type} `{QuantumComputer Q}.

Variable extract : Z -> Z -> Z -> M (option Z * option Z).

(** One attempt, run from the world [w1] left by the draw of [a]. *)
Lemma quantum_symmetry_factor_via_run (self : t Q) (N a : Z)
    (w w1 : world) :
  randint 2 (N - 1) w = (Ok a, w1) ->
  quantum_symmetry_factor_via extract self N w =
  if 1 <? gcd a N then (Ok (Some (gcd a N, N / gcd a N)), w1)
  else
    match quantum_period_estimate self a N w1 with
    | (Ok (Some r), w2) =>
        if negb (r mod 2 =? 0) then
          (Ok None,
           printed ["[QSF] Failed to find a valid period. Adjusting and retrying."] w2)
        else
          match extract a r N w2 with
          | (Ok (Some f1, Some f2), w3) =>
              if negb (f1 =? 0) && negb (f2 =? 0) && (f1 * f2 =? N)
              then (Ok (Some (f1, f2)), w3)
              else
                (Ok None,
                 printed ["[QSF] Factorization failed. Possibly prime or retry needed."] w3)
          | (Ok _, w3) =>
              (Ok None,
               printed ["[QSF] Factorization failed. Possibly prime or retry needed."] w3)
          | (Raised e, w3) => (Raised e, w3)
          end
    | (Ok None, w2) =>
        (Ok None,
         printed ["[QSF] Failed to find a valid period. Adjusting and retrying."] w2)
    | (Raised e, w2) => (Raised e, w2)
    end.
Proof.
  intros Hdraw. unfold quantum_symmetry_factor_via. unfold bind at 1.
  rewrite Hdraw. cbv zeta.
  destruct (1 <? gcd a N); [reflexivity |].
  unfold bind at 1.
  destruct (quantum_period_estimate self a N w1) as [[[r |] | e] w2];
    try reflexivity.
  destruct (negb (r mod 2 =? 0)); [reflexivity |].
  unfold bind at 1.
  destruct (extract a r N w2) as [[[[f1 |] [f2 |]] | e] w3]; try reflexivity.
  cbn [truthy].
  destruct (negb (f1 =? 0) && negb (f2 =? 0) && (f1 * f2 =? N)); reflexivity.
Qed.

Lemma quantum_symmetry_factor_via_no_draw (self : t Q) (N : Z)
    (w w1 : world) (e : exn) :
  randint 2 (N - 1) w = (Raised e, w1) ->
  quantum_symmetry_factor_via extract self N w = (Raised e, w1).
Proof.
  intros Hdraw. unfold quantum_symmetry_factor_via. unfold bind at 1.
  rewrite Hdraw. reflexivity.
Qed.

(** C4: for every [N >= 3] and every sampled base [a] (of [2 .. N-1]),
    if [g = gcd(a, N) > 1] the attempt succeeds with [(g, N // g)], and
    neither the order finder nor the extractor is invoked: the outcome
    is the same whatever those two would do, and the world is the one
    the draw left. *)
Theorem trivial_gcd_shortcut (self : t Q) (N a : Z) (w w1 : world) :
  3 <= N -> randint 2 (N - 1) w = (Ok a, w1) -> 1 < gcd a N ->
  quantum_symmetry_factor_via extract self N w
  = (Ok (Some (gcd a N, N / gcd a N)), drawn w)
  /\ 2 <= a <= N - 1.
Proof.
  intros HN Hdraw Hg.
  rewrite (quantum_symmetry_factor_via_run self N a w w1 Hdraw).
  apply randint_range in Hdraw as [Ha ->].
  apply Z.ltb_lt in Hg. rewrite Hg. split; [reflexivity | exact Ha].
Qed.

End Orchestrator.

Section Engine.

Context {Q : Type} `{QuantumComputer Q}.

(** C10: in every execution of [quantum_symmetry_factor] the extractor
    is invoked with an even order only.  The attempt is run against
    two arbitrary extractors that agree on even orders: it cannot tell
    them apart, so what an extractor does on an odd order (where
    [r // 2] truncates) is never reached. *)
Theorem extractor_reached_with_even_order_only
    (ext1 ext2 : Z -> Z -> Z -> M (option Z * option Z))
    (self : t Q) (N : Z) (w : world) :
  (forall a r w', Z.even r = true -> ext1 a r N w' = ext2 a r N w') ->
  quantum_symmetry_factor_via ext1 self N w
  = quantum_symmetry_factor_via ext2 self N w.
Proof.
  intros Hagree.
  destruct (randint 2 (N - 1) w) as [[a | e] w1] eqn:Hdraw.
  - rewrite !(quantum_symmetry_factor_via_run _ self N a w w1 Hdraw).
    destruct (1 <? gcd a N); [reflexivity |].
    destruct (quantum_period_estimate self a N w1) as [[[r |] | e] w2];
      try reflexivity.
    destruct (r mod 2 =? 0) eqn:Hr; cbn [negb]; [| reflexivity].
    rewrite Hagree; [reflexivity |].
    rewrite Zeven_mod. exact Hr.
  - rewrite !(quantum_symmetry_factor_via_no_draw _ self N w w1 e Hdraw).
    reflexivity.
Qed.

(** C1: for every [N >= 3], whenever [quantum_symmetry_factor(N)]
    returns a pair [(factor1, factor2)], by the shortcut or by
    extraction, [factor1 * factor2 = N], [1 < factor1 < N] and
    [1 < factor2 < N]. *)
Theorem quantum_symmetry_factor_sound (self : t Q) (N f1 f2 : Z)
    (w w' : world) :
  3 <= N ->
  quantum_symmetry_factor self N w = (Ok (Some (f1, f2)), w') ->
  f1 * f2 = N /\ 1 < f1 < N /\ 1 < f2 < N.
Proof.
  intros HN Hrun. unfold quantum_symmetry_factor in Hrun.
  destruct (randint 2 (N - 1) w) as [[a | e] w1] eqn:Hdraw.
  - rewrite (quantum_symmetry_factor_via_run _ self N a w w1 Hdraw) in Hrun.
    apply randint_range in Hdraw as [Ha _].
    rewrite gcd_pos_Zgcd in Hrun by lia.
    destruct (Z.ltb_spec 1 (Z.gcd a N)) as [Hg | Hg].
    + injection Hrun as <- <- _. apply Zgcd_base_splits; assumption.
    + destruct (quantum_period_estimate self a N w1) as [[[r |] | e] w2];
        try discriminate.
      destruct (negb (r mod 2 =? 0)); [discriminate |].
      unfold extract_symmetry, bind in Hrun.
      destruct (pow a (r / 2) N w2) as [[x | e] w3] eqn:Hpow;
        [| discriminate].
      apply pow_residue in Hpow as [Hx _]; [| lia].
      destruct (Z.eqb_spec x 1) as [H1 | H1]; [discriminate |].
      destruct (Z.eqb_spec x (N - 1)) as [H2 | H2]; [discriminate |].
      cbn [orb] in Hrun. unfold ret in Hrun.
      rewrite !gcd_pos_Zgcd in Hrun by lia.
      destruct (negb (Z.gcd (x - 1) N =? 0) && negb (Z.gcd (x + 1) N =? 0)
                && (Z.gcd (x - 1) N * Z.gcd (x + 1) N =? N)) eqn:Hcheck;
        [| discriminate].
      injection Hrun as <- <- _.
      apply andb_prop in Hcheck as [_ Hprod]. apply Z.eqb_eq in Hprod.
      pose proof (Zgcd_pred_lt_modulus x N ltac:(lia) Hx H1) as Hf1.
      pose proof (Zgcd_succ_lt_modulus x N ltac:(lia) Hx H2) as Hf2.
      repeat split; try lia; nia.
  - rewrite (quantum_symmetry_factor_via_no_draw _ self N w w1 e Hdraw) in Hrun.
    discriminate.
Qed.

(** C9: for every [N <= 2], [quantum_symmetry_factor(N)] does not
    return [None]: it raises, because the base is drawn from the empty
    range [2 .. N-1].  Nothing has been printed or drawn by then. *)
Theorem quantum_symmetry_factor_small_modulus_raises (self : t Q) (N : Z)
    (w : world) :
  N <= 2 ->
  quantum_symmetry_factor self N w = (Raised ValueError, w).
Proof.
  intros HN. unfold quantum_symmetry_factor.
  apply quantum_symmetry_factor_via_no_draw.
  apply randint_empty. lia.
Qed.

End Engine.

(** ** The engine on the simulated computer *)

Lemma run_quantum_circuit_run (self : qsfQuantumComputer.t) (a N : Z)
    (w : world) :
  exists lines,
    qsfQuantumComputer.run_quantum_circuit self a N w =
    (Ok (find (fun r => a ^ r mod N =? 1) (range 1 N)), printed lines w).
Proof.
  unfold qsfQuantumComputer.run_quantum_circuit, bind, print.
  rewrite simulate_period_finding_run.
  destruct (find (fun r => a ^ r mod N =? 1) (range 1 N)) as [r |];
    unfold ret; rewrite ?printed_printed; eexists; reflexivity.
Qed.

(** The simulated computer never raises, and an order it reports lies
    in [1 .. N-1]. *)
Lemma quantum_period_estimate_ok (self : t qsfQuantumComputer.t) (a N : Z)
    (w : world) :
  exists ro w',
    quantum_period_estimate self a N w = (Ok ro, w')
    /\ forall r, ro = Some r -> 1 <= r < N.
Proof.
  unfold quantum_period_estimate, run_quantum_circuit, qsf_computer.
  destruct (run_quantum_circuit_run (quantum_computer self) a N w)
    as [lines Hrun].
  rewrite Hrun. eexists; eexists; split; [reflexivity |].
  intros r Hr.
  pose proof (find_range (fun r => a ^ r mod N =? 1) _ 1 N eq_refl) as Hfind.
  rewrite Hr in Hfind. tauto.
Qed.

(** C5: for every [N >= 3] and every sampled base [a] coprime to [N],
    the attempt raises nothing, and it returns [None] when the order
    finder reports not-found, when the order found is odd, when the
    extraction is degenerate (no factors), and when the candidates fail
    the check [factor1 * factor2 == N].  The four cases hold whatever
    object answers as the quantum computer; that nothing is raised is
    stated for the simulated one. *)
Theorem failed_attempt_returns_None (N a : Z) (w w1 : world) :
  3 <= N -> randint 2 (N - 1) w = (Ok a, w1) -> Z.gcd a N = 1 ->
  (forall self : t qsfQuantumComputer.t,
     exists v w', quantum_symmetry_factor self N w = (Ok v, w'))
  /\ (forall (Q : Type) (C : QuantumComputer Q) (self : t Q),
      (forall w2,
         quantum_period_estimate self a N w1 = (Ok None, w2) ->
         fst (quantum_symmetry_factor self N w) = Ok None)
      /\ (forall r w2,
           quantum_period_estimate self a N w1 = (Ok (Some r), w2) ->
           Z.odd r = true ->
           fst (quantum_symmetry_factor self N w) = Ok None)
      /\ (forall r w2 w3,
           quantum_period_estimate self a N w1 = (Ok (Some r), w2) ->
           Z.even r = true ->
           extract_symmetry self a r N w2 = (Ok (None, None), w3) ->
           fst (quantum_symmetry_factor self N w) = Ok None)
      /\ (forall r w2 w3 f1 f2,
           quantum_period_estimate self a N w1 = (Ok (Some r), w2) ->
           Z.even r = true ->
           extract_symmetry self a r N w2 = (Ok (Some f1, Some f2), w3) ->
           f1 * f2 <> N ->
           fst (quantum_symmetry_factor self N w) = Ok None)).
Proof.
  intros HN Hdraw Hcop.
  pose proof (randint_range _ _ _ _ _ Hdraw) as [Ha _].
  assert (Hg : (1 <? gcd a N) = false).
  { rewrite gcd_pos_Zgcd by lia. rewrite Hcop. reflexivity. }
  split.
  - intros self. unfold quantum_symmetry_factor.
    rewrite (quantum_symmetry_factor_via_run _ self N a w w1 Hdraw), Hg.
    destruct (quantum_period_estimate_ok self a N w1)
      as (ro & w2 & Hqpe & Hro).
    rewrite Hqpe. destruct ro as [r |]; [| eexists; eexists; reflexivity].
    specialize (Hro r eq_refl).
    destruct (negb (r mod 2 =? 0)); [eexists; eexists; reflexivity |].
    rewrite extract_symmetry_run by lia.
    destruct ((a ^ (r / 2) mod N =? 1) || (a ^ (r / 2) mod N =? N - 1));
      [eexists; eexists; reflexivity |].
    cbv beta iota.
    match goal with
    | |- exists _ _, (if ?c then _ else _) = _ => destruct c
    end; eexists; eexists; reflexivity.
  - intros Q C self. unfold quantum_symmetry_factor.
    rewrite (quantum_symmetry_factor_via_run _ self N a w w1 Hdraw), Hg.
    repeat split.
    + intros w2 Hqpe. rewrite Hqpe. reflexivity.
    + intros r w2 Hqpe Hodd. rewrite Hqpe.
      rewrite <- Zeven_mod, <- Z.negb_odd, Hodd. reflexivity.
    + intros r w2 w3 Hqpe Heven Hext. rewrite Hqpe.
      rewrite <- Zeven_mod, Heven, Hext. reflexivity.
    + intros r w2 w3 f1 f2 Hqpe Heven Hext Hprod. rewrite Hqpe.
      rewrite <- Zeven_mod, Heven, Hext.
      apply Z.eqb_neq in Hprod. rewrite Hprod, andb_false_r. reflexivity.
Qed.

(** C6: for [N = 15] and base [a = 7], [simulate_period_finding(7, 15)]
    returns [r = 4] (as [7^4 mod 15 = 1]), and [extract_symmetry(7, 4, 15)]
    computes [x = 7^2 mod 15 = 4] and returns
    [(gcd(3, 15), gcd(5, 15)) = (3, 5)], whose product is [15]. *)
Theorem worked_example_15_7 (computer : qsfQuantumComputer.t)
    (self : t qsfQuantumComputer.t) (w : world) :
  fst (qsfQuantumComputer.simulate_period_finding computer 7 15 w)
  = Ok (Some 4)
  /\ 7 ^ 4 mod 15 = 1
  /\ pow 7 (4 / 2) 15 w = (Ok 4, w)
  /\ gcd (4 - 1) 15 = 3 /\ gcd (4 + 1) 15 = 5
  /\ extract_symmetry self 7 4 15 w = (Ok (Some 3, Some 5), w)
  /\ 3 * 5 = 15.
Proof.
  repeat split.
Qed.

(** ** Determinism *)

(** C7: the order finder and the factor extractor are functions of
    their inputs alone: for given [(a, N)], respectively [(a, r, N)],
    every run returns the same result, whatever the object it is
    called on and the state of the process, and it consumes no
    randomness (the finder only appends lines that are themselves
    determined by [(a, N)]).  The orchestrator's result is determined
    by [N] and the base it draws, and does vary with that draw. *)
Theorem finder_and_extractor_deterministic :
  (forall a N, exists res lines, forall computer w,
      qsfQuantumComputer.simulate_period_finding computer a N w
      = (res, printed lines w))
  /\ (forall a r N, exists res, forall (self : t qsfQuantumComputer.t) w,
      extract_symmetry self a r N w = (res, w))
  /\ (forall N (self1 self2 : t qsfQuantumComputer.t) w1 w2,
      fst (randint 2 (N - 1) w1) = fst (randint 2 (N - 1) w2) ->
      fst (quantum_symmetry_factor self1 N w1)
      = fst (quantum_symmetry_factor self2 N w2))
  /\ fst (quantum_symmetry_factor qsf_algorithm 15 (fresh_world 5))
     <> fst (quantum_symmetry_factor qsf_algorithm 15 (fresh_world 12)).
Proof.
  split; [| split; [| split]].
  - intros a N.
    destruct (find (fun r => a ^ r mod N =? 1) (range 1 N)) as [r |] eqn:Hf.
    + exists (Ok (Some r)).
      exists [("[QSF] Estimated period (r) found: " ++ str r)%string].
      intros computer w. rewrite simulate_period_finding_run, Hf. reflexivity.
    + exists (Ok None). exists [].
      intros computer w. rewrite simulate_period_finding_run, Hf, printed_nil.
      reflexivity.
  - intros a r N. unfold extract_symmetry, bind.
    destruct (pow_pure a (r / 2) N) as [[x | e] Hpow].
    + exists (Ok (if (x =? 1) || (x =? N - 1) then (None, None)
                  else (Some (gcd (x - 1) N), Some (gcd (x + 1) N)))).
      intros self w. rewrite Hpow.
      destruct ((x =? 1) || (x =? N - 1)); reflexivity.
    + exists (Raised e). intros self w. rewrite Hpow. reflexivity.
  - intros N self1 self2 w1 w2 Hsame. unfold quantum_symmetry_factor.
    destruct (randint 2 (N - 1) w1) as [[a1 | e1] w1'] eqn:Hd1;
      destruct (randint 2 (N - 1) w2) as [[a2 | e2] w2'] eqn:Hd2;
      cbn [fst] in Hsame; try discriminate.
    + injection Hsame as <-.
      rewrite (quantum_symmetry_factor_via_run _ self1 N a1 w1 w1' Hd1).
      rewrite (quantum_symmetry_factor_via_run _ self2 N a1 w2 w2' Hd2).
      destruct (1 <? gcd a1 N); [reflexivity |].
      unfold quantum_period_estimate, run_quantum_circuit, qsf_computer.
      destruct (run_quantum_circuit_run (quantum_computer self1) a1 N w1')
        as [l1 ->].
      destruct (run_quantum_circuit_run (quantum_computer self2) a1 N w2')
        as [l2 ->].
      destruct (find (fun r => a1 ^ r mod N =? 1) (range 1 N)) as [r |];
        [| reflexivity].
      destruct (negb (r mod 2 =? 0)); [reflexivity |].
      unfold extract_symmetry, bind.
      destruct (pow_pure a1 (r / 2) N) as [[x | e] Hpow]; rewrite !Hpow;
        [| reflexivity].
      destruct ((x =? 1) || (x =? N - 1)); [reflexivity |].
      unfold ret.
      destruct (negb (gcd (x - 1) N =? 0) && negb (gcd (x + 1) N =? 0)
                && (gcd (x - 1) N * gcd (x + 1) N =? N)); reflexivity.
    + injection Hsame as <-.
      rewrite (quantum_symmetry_factor_via_no_draw _ self1 N w1 w1' e1 Hd1).
      rewrite (quantum_symmetry_factor_via_no_draw _ self2 N w2 w2' e1 Hd2).
      reflexivity.
  - vm_compute. discriminate.
Qed.

(** ** Termination and correctness of the Euclidean loop *)

(** C8: for all integers [a >= 0] and [b >= 0] the loop of [gcd]
    terminates (within [b + 1] tests of its condition, every pass
    replacing a non-zero [b] by a remainder strictly below it) and
    returns the greatest common divisor of [a] and [b], the value
    [math.gcd] gives. *)
Theorem gcd_terminates_with_math_gcd (a b : Z) :
  0 <= a -> 0 <= b ->
  gcd_within (S (Z.to_nat b)) a b = Some (gcd a b)
  /\ (b <> 0 -> 0 <= a mod b < b)
  /\ gcd a b = math_gcd a b
  /\ Zis_gcd a b (gcd a b) /\ 0 <= gcd a b.
Proof.
  intros Ha Hb. unfold math_gcd.
  rewrite (gcd_nonneg_Zgcd b Hb a Ha).
  repeat split.
  - rewrite <- (gcd_nonneg_Zgcd b Hb a Ha). apply gcd_within_enough, Hb.
  - apply Z.mod_pos_bound. lia.
  - apply Z.mod_pos_bound. lia.
  - apply Z.gcd_divide_l.
  - apply Z.gcd_divide_r.
  - intros x. apply Z.gcd_greatest.
  - apply Z.gcd_nonneg.
Qed.

(** ** The theorems at concrete inputs *)

(** [N = 15] with the base 7 drawn: the attempt returns [(3, 5)]. *)
Lemma quantum_symmetry_factor_sound_15 :
  3 <= 15
  /\ fst (quantum_symmetry_factor qsf_algorithm 15 (fresh_world 5))
     = Ok (Some (3, 5))
  /\ (3 * 5 = 15 /\ 1 < 3 < 15 /\ 1 < 5 < 15).
Proof.
  split; [lia |]. split; [reflexivity |].
  apply (quantum_symmetry_factor_sound qsf_algorithm 15 3 5 (fresh_world 5)
           (snd (quantum_symmetry_factor qsf_algorithm 15 (fresh_world 5)))).
  - lia.
  - reflexivity.
Defined.

(** The order of 7 modulo 15 is found as 4. *)
Lemma simulate_period_finding_least_7_15 :
  2 <= 15
  /\ fst (qsfQuantumComputer.simulate_period_finding qsf 7 15 (fresh_world 0))
     = Ok (Some 4).
Proof.
  split; [lia |].
  apply (proj1 (simulate_period_finding_least qsf 7 15 (fresh_world 0)
                  ltac:(lia))).
  - lia.
  - reflexivity.
  - intros k Hk.
    assert (Hcases : k = 1 \/ k = 2 \/ k = 3) by lia.
    destruct Hcases as [-> | [-> | ->]]; vm_compute; discriminate.
Defined.

(** [a = 7], [r = 4], [N = 15]: [x = 4] is neither 1 nor 14. *)
Lemma extract_symmetry_spec_7_4_15 :
  2 <= 15 /\ 0 <= 4 /\ Z.even 4 = true
  /\ extract_symmetry qsf_algorithm 7 4 15 (fresh_world 0)
     = (Ok (Some 3, Some 5), fresh_world 0).
Proof.
  split; [lia |]. split; [lia |]. split; [reflexivity |].
  apply (proj2 (extract_symmetry_spec qsf_algorithm 7 4 15 (fresh_world 0)
                  ltac:(lia) ltac:(lia) eq_refl)).
  vm_compute. intros [Hx | Hx]; discriminate.
Defined.

(** [N = 15] with the base 6 drawn, against an extractor that would
    raise if it were called. *)
Lemma trivial_gcd_shortcut_15_6 :
  3 <= 15
  /\ randint 2 (15 - 1) (fresh_world 4) = (Ok 6, drawn (fresh_world 4))
  /\ 1 < gcd 6 15
  /\ quantum_symmetry_factor_via (fun _ _ _ => raise ValueError)
       qsf_algorithm 15 (fresh_world 4)
     = (Ok (Some (3, 5)), drawn (fresh_world 4)).
Proof.
  split; [lia |]. split; [reflexivity |]. split; [reflexivity |].
  apply (trivial_gcd_shortcut (fun _ _ _ => raise ValueError)
           qsf_algorithm 15 6 (fresh_world 4) (drawn (fresh_world 4))).
  - lia.
  - reflexivity.
  - reflexivity.
Defined.

(** [N = 12] with the base 5 drawn: the order is 2, [x = 5], and the
    candidates 4 and 6 fail the check.  The same draw against a
    computer that reports not-found also gives [None]. *)
Lemma failed_attempt_returns_None_12_5 :
  3 <= 12
  /\ randint 2 (12 - 1) (fresh_world 3) = (Ok 5, drawn (fresh_world 3))
  /\ Z.gcd 5 12 = 1
  /\ fst (quantum_symmetry_factor qsf_algorithm 12 (fresh_world 3)) = Ok None
  /\ fst (quantum_symmetry_factor (new tt) 12 (fresh_world 3)) = Ok None.
Proof.
  split; [lia |]. split; [reflexivity |]. split; [reflexivity |].
  pose proof (failed_attempt_returns_None 12 5 (fresh_world 3)
                (drawn (fresh_world 3)) ltac:(lia) eq_refl eq_refl)
    as (_ & Hcases).
  split.
  - destruct (Hcases _ _ qsf_algorithm) as (_ & _ & _ & Hmismatch).
    apply (Hmismatch 2
             (snd (quantum_period_estimate qsf_algorithm 5 12
                     (drawn (fresh_world 3))))
             (snd (quantum_period_estimate qsf_algorithm 5 12
                     (drawn (fresh_world 3))))
             4 6).
    + reflexivity.
    + reflexivity.
    + reflexivity.
    + discriminate.
  - destruct (Hcases _ _ (new tt)) as (Hnone & _).
    apply (Hnone (drawn (fresh_world 3))). reflexivity.
Defined.

(** [gcd(12, 18) = 6], reached within 19 tests of the loop condition. *)
Lemma gcd_terminates_with_math_gcd_12_18 :
  0 <= 12 /\ 0 <= 18
  /\ gcd_within 19 12 18 = Some 6 /\ gcd 12 18 = math_gcd 12 18.
Proof.
  split; [lia |]. split; [lia |].
  pose proof (gcd_terminates_with_math_gcd 12 18 ltac:(lia) ltac:(lia))
    as (Hrun & _ & Hmath & _).
  split; [exact Hrun | exact Hmath].
Defined.

(** [N = 2]: the draw from the empty range [2 .. 1] raises. *)
Lemma quantum_symmetry_factor_raises_at_2 :
  2 <= 2
  /\ quantum_symmetry_factor qsf_algorithm 2 (fresh_world 0)
     = (Raised ValueError, fresh_world 0).
Proof.
  split; [lia |].
  apply (quantum_symmetry_factor_small_modulus_raises qsf_algorithm 2
           (fresh_world 0)).
  lia.
Defined.

(** The engine's own extractor against the one that refuses odd
    orders: the attempt on 15 cannot tell them apart. *)
Lemma extractor_reached_with_even_order_only_15 :
  (forall a r w', Z.even r = true ->
     extract_symmetry qsf_algorithm a r 15 w'
     = even_order_only qsf_algorithm a r 15 w')
  /\ quantum_symmetry_factor_via (extract_symmetry qsf_algorithm)
       qsf_algorithm 15 (fresh_world 5)
     = quantum_symmetry_factor_via (even_order_only qsf_algorithm)
         qsf_algorithm 15 (fresh_world 5).
Proof.
  assert (Hagree : forall a r w', Z.even r = true ->
            extract_symmetry qsf_algorithm a r 15 w'
            = even_order_only qsf_algorithm a r 15 w').
  { intros a r w' Heven. unfold even_order_only. rewrite Heven. reflexivity. }
  split; [exact Hagree |].
  apply (extractor_reached_with_even_order_only
           (extract_symmetry qsf_algorithm) (even_order_only qsf_algorithm)
           qsf_algorithm 15 (fresh_world 5) Hagree).
Defined.

(** * Further properties of the code *)

(** ** The Euclidean loop on all integers *)

Lemma gcd_within_abs (n : nat) :
  forall a b, (Z.abs_nat b <= n)%nat ->
  gcd_within (S n) a b = Some (gcd a b).
Proof.
  induction n as [| n IH]; intros a b Hb; cbn [gcd_within];
    rewrite (gcd_unfold a b);
    destruct (Z.eqb_spec b 0) as [-> | Hnz]; try reflexivity.
  - lia.
  - apply IH.
    destruct (Z_lt_ge_dec 0 b) as [Hpos | Hneg].
    + pose proof (Z.mod_pos_bound a b Hpos). lia.
    + pose proof (Z.mod_neg_bound a b ltac:(lia)). lia.
Qed.

(** The loop exits for every pair of integers, negative ones
    included, within [|b| + 1] tests of its condition. *)
Theorem gcd_terminates_on_all_integers (a b : Z) :
  gcd_within (S (Z.abs_nat b)) a b = Some (gcd a b)
  /\ (b <> 0 -> Z.abs (a mod b) < Z.abs b).
Proof.
  split.
  - apply gcd_within_abs. lia.
  - intros Hb. destruct (Z_lt_ge_dec 0 b) as [Hpos | Hneg].
    + pose proof (Z.mod_pos_bound a b Hpos). lia.
    + pose proof (Z.mod_neg_bound a b ltac:(lia)). lia.
Qed.

(** Once both variables are non-positive they stay so, and the loop
    ends on the negated [Z.gcd]. *)
Lemma gcd_nonpos_Zgcd :
  forall n, 0 <= n -> forall a, a <= 0 -> gcd a (- n) = - Z.gcd a (- n).
Proof.
  apply (Zlt_0_ind (fun n => forall a, a <= 0 ->
           gcd a (- n) = - Z.gcd a (- n))).
  intros n IH Hn a Ha.
  destruct (Z.eq_dec n 0) as [-> | Hnz].
  - cbn [Z.opp]. rewrite gcd_zero_r, Z.gcd_0_r. lia.
  - rewrite gcd_step by lia.
    pose proof (Z.mod_neg_bound a (- n) ltac:(lia)) as Hm.
    replace (a mod - n) with (- (- (a mod - n))) by lia.
    rewrite IH by lia.
    rewrite Z.opp_involutive, Z.gcd_mod_r, Z.gcd_comm. reflexivity.
Qed.

Lemma gcd_neg_Zgcd (a b : Z) : b < 0 -> gcd a b = - Z.gcd a b.
Proof.
  intros Hb. rewrite gcd_step by lia.
  pose proof (Z.mod_neg_bound a b Hb) as Hm.
  replace (a mod b) with (- (- (a mod b))) by lia.
  rewrite gcd_nonpos_Zgcd by lia.
  rewrite Z.opp_involutive, Z.gcd_mod_r, Z.gcd_comm. reflexivity.
Qed.

Lemma Zis_gcd_up_to_sign (a b g : Z) :
  Z.abs g = Z.gcd a b -> Zis_gcd a b g.
Proof.
  intros Hg. constructor.
  - apply Z.divide_abs_l. rewrite Hg. apply Z.gcd_divide_l.
  - apply Z.divide_abs_l. rewrite Hg. apply Z.gcd_divide_r.
  - intros x Hxa Hxb. apply Z.divide_abs_r. rewrite Hg.
    apply Z.gcd_greatest; assumption.
Qed.

(** What the loop returns on any integers: [a] itself when [b = 0],
    otherwise the greatest common divisor carrying the sign of [b].
    So it is a greatest common divisor up to sign, and it differs from
    [math.gcd] exactly when that sign is negative. *)
Theorem gcd_value_on_all_integers (a b : Z) :
  gcd a b = (if b =? 0 then a else Z.sgn b * Z.gcd a b)
  /\ Z.abs (gcd a b) = math_gcd a b
  /\ Zis_gcd a b (gcd a b)
  /\ (gcd a b = math_gcd a b <-> 0 < b \/ (b = 0 /\ 0 <= a)).
Proof.
  unfold math_gcd.
  pose proof (Z.gcd_nonneg a b) as Hnn.
  assert (Hz : Z.gcd a b = 0 -> b = 0) by apply Z.gcd_eq_0_r.
  destruct (Z.lt_trichotomy b 0) as [Hneg | [Hzero | Hpos]].
  - rewrite gcd_neg_Zgcd by assumption.
    rewrite Z.sgn_neg by assumption.
    destruct (Z.eqb_spec b 0) as [Hb | Hb]; [lia |].
    split; [lia |]. split; [lia |].
    split; [apply Zis_gcd_up_to_sign |]; lia.
  - subst b. rewrite gcd_zero_r. rewrite Z.gcd_0_r in *. cbn [Z.eqb].
    split; [reflexivity |]. split; [reflexivity |].
    split; [apply Zis_gcd_up_to_sign; rewrite Z.gcd_0_r |]; lia.
  - rewrite gcd_pos_Zgcd by assumption.
    rewrite Z.sgn_pos by assumption.
    destruct (Z.eqb_spec b 0) as [Hb | Hb]; [lia |].
    split; [lia |]. split; [lia |].
    split; [apply Zis_gcd_up_to_sign |]; lia.
Qed.

(** ** The extractor outside its intended inputs *)

Section ExtractorEdges.

Context {Q : Type} `{QuantumComputer Q}.

(** A zero modulus makes [pow] raise, so the extractor raises; with
    modulus 1 every power is 0, which is [N - 1], so the extractor
    always answers no-factors.  Both whatever the base and the order. *)
Theorem extract_symmetry_degenerate_moduli (self : t Q) (a r : Z)
    (w : world) :
  extract_symmetry self a r 0 w = (Raised ValueError, w)
  /\ extract_symmetry self a r 1 w = (Ok (None, None), w).
Proof.
  split.
  - reflexivity.
  - unfold extract_symmetry, bind, pow. cbn [Z.eqb].
    destruct (r / 2 <? 0).
    + change (invmod a 1) with
        (if (a * 0) mod 1 =? 1 mod 1 then Some 0 else None).
      rewrite !Z.mod_1_r. cbn [Z.eqb]. unfold ret.
      rewrite Z.mod_1_r. reflexivity.
    + unfold ret. rewrite Z.mod_1_r. reflexivity.
Qed.

(** For [N >= 2] the extractor never hands back half a pair, it
    leaves the world alone, and the candidates it returns are positive
    divisors of [N] strictly below [N] (whichever order it was given). *)
Theorem extract_symmetry_candidates_divide (self : t Q) (a r N : Z)
    (w w' : world) (o1 o2 : option Z) :
  2 <= N ->
  extract_symmetry self a r N w = (Ok (o1, o2), w') ->
  w' = w
  /\ ((o1 = None /\ o2 = None)
      \/ exists f1 f2, o1 = Some f1 /\ o2 = Some f2
           /\ (f1 | N) /\ (f2 | N) /\ 0 < f1 < N /\ 0 < f2 < N).
Proof.
  intros HN. unfold extract_symmetry, bind.
  destruct (pow a (r / 2) N w) as [[x | e] w1] eqn:Hpow; [| discriminate].
  apply pow_residue in Hpow as [Hx ->]; [| lia].
  destruct (Z.eqb_spec x 1) as [H1 | H1]; cbn [orb].
  { intros [= <- <- <-]. auto. }
  destruct (Z.eqb_spec x (N - 1)) as [H2 | H2].
  { intros [= <- <- <-]. auto. }
  unfold ret. rewrite !gcd_pos_Zgcd by lia.
  intros [= <- <- <-]. split; [reflexivity |]. right.
  exists (Z.gcd (x - 1) N), (Z.gcd (x + 1) N).
  pose proof (Zgcd_pred_lt_modulus x N ltac:(lia) Hx H1).
  pose proof (Zgcd_succ_lt_modulus x N ltac:(lia) Hx H2).
  repeat split; try lia; apply Z.gcd_divide_r.
Qed.

End ExtractorEdges.

(** ** Square roots of one modulo an odd number *)

(** If [x * x = 1] modulo an odd [N], the two greatest common divisors
    the extractor forms multiply to [N]. *)
Lemma Zgcd_split_odd_modulus (x N : Z) :
  0 < N -> N mod 2 = 1 -> (x * x) mod N = 1 mod N ->
  Z.gcd (x - 1) N * Z.gcd (x + 1) N = N.
Proof.
  intros HN Hodd Hsq.
  set (d1 := Z.gcd (x - 1) N). set (d2 := Z.gcd (x + 1) N).
  assert (Hd1 : 0 < d1).
  { pose proof (Z.gcd_nonneg (x - 1) N).
    assert (d1 <> 0) by (intros Hz; apply Z.gcd_eq_0_r in Hz; lia).
    unfold d1 in *. lia. }
  assert (Hd2 : 0 < d2).
  { pose proof (Z.gcd_nonneg (x + 1) N).
    assert (d2 <> 0) by (intros Hz; apply Z.gcd_eq_0_r in Hz; lia).
    unfold d2 in *. lia. }
  assert (Hdiv : (N | (x - 1) * (x + 1))).
  { replace ((x - 1) * (x + 1)) with (x * x - 1) by ring.
    apply Z.mod_divide; [lia |].
    rewrite Zminus_mod, Hsq, Z.sub_diag. apply Z.mod_0_l. lia. }
  destruct (Z.gcd_divide_r (x - 1) N) as [n1 Hn1]. fold d1 in Hn1.
  destruct (Z.gcd_divide_l (x - 1) N) as [u1 Hu1]. fold d1 in Hu1.
  assert (Hn1pos : 0 < n1) by nia.
  (* the cofactor of d1 in N is coprime to the cofactor of d1 in x-1 *)
  assert (Hcop1 : Z.gcd n1 u1 = 1).
  { pose proof (Z.gcd_div_gcd (x - 1) N d1 ltac:(lia) eq_refl) as Hc.
    assert (Hq1 : (x - 1) / d1 = u1).
    { rewrite Hu1 at 1. apply Z.div_mul. lia. }
    assert (Hq2 : N / d1 = n1).
    { rewrite Hn1 at 1. apply Z.div_mul. lia. }
    rewrite Hq1, Hq2 in Hc.
    rewrite Z.gcd_comm. exact Hc. }
  (* hence it divides x+1, and so d2 *)
  assert (Hn1v : (n1 | x + 1)).
  { apply (Z.gauss n1 u1); [| exact Hcop1].
    apply (Z.mul_divide_cancel_l _ _ d1); [lia |].
    replace (d1 * n1) with N by lia.
    replace (d1 * (u1 * (x + 1))) with ((x - 1) * (x + 1)) by (rewrite Hu1; ring).
    exact Hdiv. }
  assert (Hn1d2 : (n1 | d2)).
  { apply Z.gcd_greatest; [exact Hn1v |]. exists d1. lia. }
  (* d1 and d2 share no factor: one would divide 2 and the odd N *)
  assert (Hcop : Z.gcd d2 d1 = 1).
  { pose proof (Z.gcd_nonneg d2 d1) as Hnn.
    assert (Hg2 : (Z.gcd d2 d1 | 2)).
    { replace 2 with ((x + 1) - (x - 1)) by ring.
      apply Z.divide_sub_r.
      - eapply Z.divide_trans; [apply Z.gcd_divide_l | apply Z.gcd_divide_l].
      - eapply Z.divide_trans; [apply Z.gcd_divide_r | apply Z.gcd_divide_l]. }
    assert (HgN : (Z.gcd d2 d1 | N)).
    { eapply Z.divide_trans; [apply Z.gcd_divide_l | apply Z.gcd_divide_r]. }
    pose proof (Z.divide_pos_le (Z.gcd d2 d1) 2 ltac:(lia) Hg2) as Hle.
    destruct Hg2 as [k2 Hk2]. destruct HgN as [kN HkN].
    assert (Hgnz : Z.gcd d2 d1 <> 0).
    { intros Hz. rewrite Hz in Hk2. lia. }
    assert (Hcases : Z.gcd d2 d1 = 1 \/ Z.gcd d2 d1 = 2) by lia.
    destruct Hcases as [Hone | Htwo]; [exact Hone |].
    rewrite Htwo in HkN. rewrite HkN, Z.mod_mul in Hodd by lia. lia. }
  assert (Hd2n1 : (d2 | n1)).
  { apply (Z.gauss d2 d1); [| exact Hcop].
    replace (d1 * n1) with N by lia. apply Z.gcd_divide_r. }
  assert (Heq : n1 = d2).
  { apply Z.divide_antisym_nonneg; try lia; assumption. }
  lia.
Qed.

Lemma even_halves (r : Z) : Z.even r = true -> r / 2 + r / 2 = r.
Proof.
  intros Heven. rewrite Zeven_mod in Heven. apply Z.eqb_eq in Heven.
  pose proof (Z.div_mod r 2 ltac:(lia)). lia.
Qed.

(** The half-power of a base whose [r]-th power is one squares to one. *)
Lemma half_power_squares_to_one (a r N : Z) :
  0 <= r -> Z.even r = true -> a ^ r mod N = 1 ->
  (a ^ (r / 2) mod N * (a ^ (r / 2) mod N)) mod N = 1 mod N.
Proof.
  intros Hr Heven Hone.
  rewrite <- Zmult_mod.
  rewrite <- Z.pow_add_r by (apply Z.div_pos; lia).
  rewrite even_halves by assumption.
  transitivity ((a ^ r mod N) mod N).
  - symmetry. apply Zmod_mod.
  - rewrite Hone. reflexivity.
Qed.

Section ExtractorOdd.

Context {Q : Type} `{QuantumComputer Q}.

(** For an odd modulus [N >= 3] and an even [r] with [a^r mod N = 1],
    a non-degenerate extraction always yields a proper factorisation:
    the candidates multiply to [N], so the orchestrator's product check
    cannot reject them. *)
Theorem extract_symmetry_splits_odd_modulus (self : t Q) (a r N : Z)
    (w : world) :
  3 <= N -> Z.odd N = true -> 0 <= r -> Z.even r = true ->
  a ^ r mod N = 1 ->
  a ^ (r / 2) mod N <> 1 -> a ^ (r / 2) mod N <> N - 1 ->
  exists f1 f2,
    extract_symmetry self a r N w = (Ok (Some f1, Some f2), w)
    /\ f1 * f2 = N /\ 1 < f1 < N /\ 1 < f2 < N.
Proof.
  intros HN Hodd Hr Heven Hone H1 H2.
  rewrite extract_symmetry_run by lia.
  set (x := a ^ (r / 2) mod N) in *.
  destruct (Z.eqb_spec x 1) as [| _]; [contradiction |].
  destruct (Z.eqb_spec x (N - 1)) as [| _]; [contradiction |].
  cbn [orb]. rewrite !gcd_pos_Zgcd by lia.
  exists (Z.gcd (x - 1) N), (Z.gcd (x + 1) N).
  assert (Hx : 0 <= x < N) by (apply Z.mod_pos_bound; lia).
  pose proof (Zgcd_pred_lt_modulus x N ltac:(lia) Hx H1) as Hf1.
  pose proof (Zgcd_succ_lt_modulus x N ltac:(lia) Hx H2) as Hf2.
  assert (Hprod : Z.gcd (x - 1) N * Z.gcd (x + 1) N = N).
  { apply Zgcd_split_odd_modulus; [lia | |].
    - rewrite Zodd_mod in Hodd. apply Z.eqb_eq in Hodd. exact Hodd.
    - apply half_power_squares_to_one; assumption. }
  split; [reflexivity |]. split; [exact Hprod |]. nia.
Qed.

End ExtractorOdd.

(** ** The order finder and coprimality *)

Lemma range_In (lo hi r : Z) : lo <= r < hi -> In r (range lo hi).
Proof.
  intros Hr. unfold range. apply in_map_iff.
  exists (Z.to_nat (r - lo)). split; [lia |].
  apply in_seq. lia.
Qed.

Lemma range_length (lo hi : Z) :
  List.length (range lo hi) = Z.to_nat (hi - lo).
Proof. unfold range. rewrite length_map, length_seq. reflexivity. Qed.

Lemma range_NoDup (lo hi : Z) : NoDup (range lo hi).
Proof.
  unfold range. apply NoDup_map_NoDup_ForallPairs; [| apply seq_NoDup].
  intros i j _ _ Heq. lia.
Qed.

(** A power of a base coprime to [N >= 2] is never 0 modulo [N]. *)
Lemma coprime_power_residue (a N k : Z) :
  2 <= N -> Z.gcd a N = 1 -> 0 <= k -> 1 <= a ^ k mod N < N.
Proof.
  intros HN Hcop Hk.
  pose proof (Z.mod_pos_bound (a ^ k) N ltac:(lia)) as Hb.
  assert (Hnz : a ^ k mod N <> 0).
  { intros Hz. apply Z.mod_divide in Hz; [| lia].
    pose proof (Z.coprime_pow_l a N k Hk Hcop) as Hc. unfold Z.coprime in Hc.
    assert (HNN : (N | Z.gcd (a ^ k) N))
      by (apply Z.gcd_greatest; [exact Hz | apply Z.divide_refl]).
    rewrite Hc in HNN. apply Z.divide_1_r in HNN. lia. }
  lia.
Qed.

(** Two powers of a coprime base that agree modulo [N] differ by a
    period. *)
Lemma coprime_power_cancel (a N i j : Z) :
  2 <= N -> Z.gcd a N = 1 -> 0 <= i < j ->
  a ^ i mod N = a ^ j mod N -> a ^ (j - i) mod N = 1.
Proof.
  intros HN Hcop Hij Heq.
  apply Zdivide_mod_minus; [lia |].
  apply (Z.gauss N (a ^ i)).
  - replace (a ^ i * (a ^ (j - i) - 1)) with (a ^ j - a ^ i).
    + apply Z.mod_divide; [lia |].
      rewrite Zminus_mod, Heq, Z.sub_diag. apply Z.mod_0_l. lia.
    + replace j with (i + (j - i)) at 1 by lia.
      rewrite Z.pow_add_r by lia. ring.
  - rewrite Z.gcd_comm. apply (Z.coprime_pow_l a N i); [lia | exact Hcop].
Qed.

(** If some positive power of [a] is one modulo [N >= 2], [a] is
    coprime to [N]. *)
Lemma period_coprime (a N r : Z) :
  2 <= N -> 1 <= r -> a ^ r mod N = 1 -> Z.gcd a N = 1.
Proof.
  intros HN Hr Hone.
  pose proof (Z.gcd_nonneg a N) as Hnn.
  assert (Hd : (Z.gcd a N | 1)).
  { replace 1 with (a ^ r - N * (a ^ r / N)).
    - apply Z.divide_sub_r.
      + eapply Z.divide_trans; [apply Z.gcd_divide_l |].
        apply Z.divide_pow_same_r. exact Hr.
      + apply Z.divide_mul_l, Z.gcd_divide_r.
    - pose proof (Z.div_mod (a ^ r) N ltac:(lia)). lia. }
  apply Z.divide_1_r in Hd. lia.
Qed.

(** With a coprime base the search cannot run through [1 .. N-1]
    without a hit: the [N] powers [a^0 .. a^(N-1)] would be pairwise
    distinct residues among the [N - 1] non-zero ones. *)
Lemma coprime_period_exists (a N : Z) :
  2 <= N -> Z.gcd a N = 1 ->
  find (fun r => a ^ r mod N =? 1) (range 1 N) <> None.
Proof.
  intros HN Hcop Hnone.
  pose proof (find_range (fun r => a ^ r mod N =? 1) _ 1 N eq_refl) as Hfind.
  rewrite Hnone in Hfind.
  assert (Hdistinct : NoDup (map (fun k => a ^ k mod N) (range 0 N))).
  { apply NoDup_map_NoDup_ForallPairs; [| apply range_NoDup].
    intros i j Hi Hj Heq.
    apply range_bounds in Hi. apply range_bounds in Hj.
    destruct (Z.lt_trichotomy i j) as [Hlt | [Heqij | Hgt]];
      [exfalso | exact Heqij | exfalso].
    - pose proof (coprime_power_cancel a N i j HN Hcop ltac:(lia) Heq) as Hp.
      specialize (Hfind (j - i) ltac:(lia)).
      apply Z.eqb_neq in Hfind. contradiction.
    - symmetry in Heq.
      pose proof (coprime_power_cancel a N j i HN Hcop ltac:(lia) Heq) as Hp.
      specialize (Hfind (i - j) ltac:(lia)).
      apply Z.eqb_neq in Hfind. contradiction. }
  apply NoDup_incl_length with (l' := range 1 N) in Hdistinct.
  - rewrite length_map, !range_length in Hdistinct. lia.
  - intros y Hy. apply in_map_iff in Hy as (k & <- & Hk).
    apply range_bounds in Hk. apply range_In.
    apply coprime_power_residue; [assumption | assumption | lia].
Qed.

(** For [N >= 2], [simulate_period_finding(a, N)] finds an order
    exactly when [a] is coprime to [N]: a coprime base always has one
    below [N], and a base sharing a factor with [N] has none at all. *)
Theorem simulate_period_finding_finds_iff_coprime
    (self : qsfQuantumComputer.t) (a N : Z) (w : world) :
  2 <= N ->
  ((exists r, fst (qsfQuantumComputer.simulate_period_finding self a N w)
              = Ok (Some r))
   <-> Z.gcd a N = 1)
  /\ (Z.gcd a N <> 1 ->
      fst (qsfQuantumComputer.simulate_period_finding self a N w) = Ok None).
Proof.
  intros HN. rewrite simulate_period_finding_run.
  pose proof (find_range (fun r => a ^ r mod N =? 1) _ 1 N eq_refl) as Hfind.
  destruct (find (fun r => a ^ r mod N =? 1) (range 1 N)) as [r |] eqn:Hf;
    cbn [fst].
  - destruct Hfind as (Hr & Hhit & _). apply Z.eqb_eq in Hhit.
    pose proof (period_coprime a N r HN ltac:(lia) Hhit) as Hcop.
    split; [split |].
    + intros _. exact Hcop.
    + intros _. exists r. reflexivity.
    + intros Hne. contradiction.
  - split; [split |].
    + intros [r Hr]. discriminate.
    + intros Hcop. exfalso.
      apply (coprime_period_exists a N HN Hcop). exact Hf.
    + reflexivity.
Qed.

(** ** Whole attempts *)

Section Attempts.

Context {Q : Type} `{QuantumComputer Q}.

Lemma extract_symmetry_candidates_range (self : t Q) (a r N f1 f2 : Z)
    (w w' : world) :
  2 <= N ->
  extract_symmetry self a r N w = (Ok (Some f1, Some f2), w') ->
  0 < f1 < N /\ 0 < f2 < N.
Proof.
  intros HN. unfold extract_symmetry, bind.
  destruct (pow a (r / 2) N w) as [[x | e] w1] eqn:Hpow; [| discriminate].
  apply pow_residue in Hpow as [Hx _]; [| lia].
  destruct (Z.eqb_spec x 1) as [H1 | H1]; [discriminate |].
  destruct (Z.eqb_spec x (N - 1)) as [H2 | H2]; [discriminate |].
  cbn [orb]. unfold ret. rewrite !gcd_pos_Zgcd by lia.
  intros [= <- <- _].
  split; [apply Zgcd_pred_lt_modulus | apply Zgcd_succ_lt_modulus];
    assumption || lia.
Qed.

(** The product check makes the attempt sound for any extractor whose
    candidates lie strictly between 0 and [N]. *)
Lemma attempt_sound_via
    (extract : Z -> Z -> Z -> M (option Z * option Z))
    (self : t Q) (N f1 f2 : Z) (w w' : world) :
  3 <= N ->
  (forall a r c1 c2 w2 w3,
     extract a r N w2 = (Ok (Some c1, Some c2), w3) ->
     0 < c1 < N /\ 0 < c2 < N) ->
  quantum_symmetry_factor_via extract self N w = (Ok (Some (f1, f2)), w') ->
  f1 * f2 = N /\ 1 < f1 < N /\ 1 < f2 < N.
Proof.
  intros HN Hrange Hrun.
  destruct (randint 2 (N - 1) w) as [[a | e] w1] eqn:Hdraw.
  - rewrite (quantum_symmetry_factor_via_run _ self N a w w1 Hdraw) in Hrun.
    apply randint_range in Hdraw as [Ha _].
    rewrite gcd_pos_Zgcd in Hrun by lia.
    destruct (Z.ltb_spec 1 (Z.gcd a N)) as [Hg | Hg].
    + injection Hrun as <- <- _. apply Zgcd_base_splits; assumption.
    + destruct (quantum_period_estimate self a N w1) as [[[r |] | e] w2];
        try discriminate.
      destruct (negb (r mod 2 =? 0)); [discriminate |].
      destruct (extract a r N w2) as [[[[c1 |] [c2 |]] | e] w3] eqn:Hext;
        try discriminate.
      destruct (Hrange a r c1 c2 w2 w3 Hext) as [Hc1 Hc2].
      destruct (negb (c1 =? 0) && negb (c2 =? 0) && (c1 * c2 =? N))
        eqn:Hcheck; [| discriminate].
      injection Hrun as <- <- _.
      apply andb_prop in Hcheck as [_ Hprod]. apply Z.eqb_eq in Hprod.
      repeat split; try lia; nia.
  - rewrite (quantum_symmetry_factor_via_no_draw _ self N w w1 e Hdraw) in Hrun.
    discriminate.
Qed.

Lemma attempt_sound (self : t Q) (N f1 f2 : Z) (w w' : world) :
  3 <= N ->
  quantum_symmetry_factor self N w = (Ok (Some (f1, f2)), w') ->
  f1 * f2 = N /\ 1 < f1 < N /\ 1 < f2 < N.
Proof.
  intros HN. apply attempt_sound_via; [exact HN |].
  intros a r c1 c2 w2 w3.
  apply extract_symmetry_candidates_range. lia.
Qed.

(** Drawing a proper divisor [d] of [N] as the base ends the attempt in
    the shortcut with [(d, N // d)], whatever the computer and the
    extractor; and some draw does so, so a composite [N] always has a
    successful attempt. *)
Theorem drawing_a_divisor_factors
    (extract : Z -> Z -> Z -> M (option Z * option Z))
    (self : t Q) (N d : Z) :
  2 <= d <= N - 1 -> (d | N) ->
  (forall w w1, randint 2 (N - 1) w = (Ok d, w1) ->
     quantum_symmetry_factor_via extract self N w
     = (Ok (Some (d, N / d)), drawn w))
  /\ (exists w, fst (quantum_symmetry_factor_via extract self N w)
                = Ok (Some (d, N / d)))
  /\ d * (N / d) = N.
Proof.
  intros Hd Hdiv.
  assert (Hg : gcd d N = d).
  { rewrite gcd_pos_Zgcd by lia. apply Z.divide_gcd_iff; [lia | exact Hdiv]. }
  assert (Hrun : forall w w1, randint 2 (N - 1) w = (Ok d, w1) ->
            quantum_symmetry_factor_via extract self N w
            = (Ok (Some (d, N / d)), drawn w)).
  { intros w w1 Hdraw.
    rewrite (quantum_symmetry_factor_via_run _ self N d w w1 Hdraw), Hg.
    apply randint_range in Hdraw as [_ ->].
    destruct (Z.ltb_spec 1 d); [reflexivity | lia]. }
  split; [exact Hrun |]. split.
  - exists (World (fun _ => d - 2) 0 []).
    erewrite Hrun; [reflexivity |]. apply randint_any. exact Hd.
  - destruct Hdiv as [k ->]. rewrite Z.div_mul by lia. ring.
Qed.

(** A prime [N] is never factored: no attempt returns a pair. *)
Lemma prime_attempt_no_pair (self : t Q) (N f1 f2 : Z) (w w' : world) :
  3 <= N -> Z.prime N ->
  quantum_symmetry_factor self N w <> (Ok (Some (f1, f2)), w').
Proof.
  intros HN [_ Hprime] Hrun.
  destruct (attempt_sound self N f1 f2 w w' HN Hrun) as (Hprod & Hf1 & _).
  apply (Hprime f1 Hf1). exists f2. lia.
Qed.

End Attempts.

(** ** Attempts on the simulated computer *)

Lemma simulated_period_estimate (self : t qsfQuantumComputer.t) (a N : Z)
    (w : world) :
  exists lines,
    quantum_period_estimate self a N w =
    (Ok (find (fun r => a ^ r mod N =? 1) (range 1 N)), printed lines w).
Proof.
  unfold quantum_period_estimate, run_quantum_circuit, qsf_computer.
  apply run_quantum_circuit_run.
Qed.

Lemma simulated_attempt_returns (self : t qsfQuantumComputer.t) (N : Z)
    (w : world) :
  3 <= N ->
  exists v lines,
    quantum_symmetry_factor self N w = (Ok v, printed lines (drawn w)).
Proof.
  intros HN.
  assert (Hdraw : exists a, randint 2 (N - 1) w = (Ok a, drawn w)).
  { unfold randint. destruct (Z.ltb_spec (N - 1) 2); [lia |].
    eexists. reflexivity. }
  destruct Hdraw as [a Hdraw]. unfold quantum_symmetry_factor.
  rewrite (quantum_symmetry_factor_via_run _ self N a w _ Hdraw).
  destruct (1 <? gcd a N).
  { eexists. exists []. rewrite printed_nil. reflexivity. }
  destruct (simulated_period_estimate self a N (drawn w)) as [lines ->].
  pose proof (find_range (fun r => a ^ r mod N =? 1) _ 1 N eq_refl) as Hfind.
  destruct (find (fun r => a ^ r mod N =? 1) (range 1 N)) as [r |].
  - destruct Hfind as (Hr & _).
    destruct (negb (r mod 2 =? 0)).
    { rewrite printed_printed. eexists. eexists. reflexivity. }
    rewrite extract_symmetry_run by lia.
    destruct ((a ^ (r / 2) mod N =? 1) || (a ^ (r / 2) mod N =? N - 1)).
    { rewrite printed_printed. eexists. eexists. reflexivity. }
    cbv beta iota.
    match goal with
    | |- exists _ _, (if ?c then _ else _) = _ => destruct c
    end.
    + eexists. eexists. reflexivity.
    + rewrite printed_printed. eexists. eexists. reflexivity.
  - rewrite printed_printed. eexists. eexists. reflexivity.
Qed.

(** For [N >= 3] an attempt on the simulated computer returns normally
    (a pair or [None], never an exception), has consumed exactly one
    random draw, and has only appended lines to the output. *)
Theorem simulated_attempt_effects (self : t qsfQuantumComputer.t) (N : Z)
    (w : world) :
  3 <= N ->
  (exists v, fst (quantum_symmetry_factor self N w) = Ok v)
  /\ rng_tape (snd (quantum_symmetry_factor self N w)) = rng_tape w
  /\ rng_pos (snd (quantum_symmetry_factor self N w)) = S (rng_pos w)
  /\ exists lines,
       stdout (snd (quantum_symmetry_factor self N w)) = stdout w ++ lines.
Proof.
  intros HN.
  destruct (simulated_attempt_returns self N w HN) as (v & lines & ->).
  cbn [fst snd printed drawn rng_tape rng_pos stdout].
  split; [exists v; reflexivity |].
  split; [reflexivity |]. split; [reflexivity |].
  exists lines. reflexivity.
Qed.

(** For a prime [N >= 3] every attempt on the simulated computer
    returns [None], whatever base is drawn. *)
Theorem prime_modulus_attempt_fails (self : t qsfQuantumComputer.t)
    (N : Z) (w : world) :
  3 <= N -> Z.prime N ->
  fst (quantum_symmetry_factor self N w) = Ok None.
Proof.
  intros HN Hprime.
  destruct (simulated_attempt_returns self N w HN) as (v & lines & Hrun).
  destruct v as [[f1 f2] |].
  - exfalso. exact (prime_attempt_no_pair self N f1 f2 w _ HN Hprime Hrun).
  - rewrite Hrun. reflexivity.
Qed.

(** For an odd [N >= 3] and a drawn base coprime to [N], the order
    finder finds the order [r], and the attempt fails exactly when [r]
    is odd or [a^(r/2) = -1] modulo [N]; otherwise it returns
    [(gcd(x-1, N), gcd(x+1, N))] for [x = a^(r/2) mod N]: the
    degenerate case [x = 1] and a failed product check never occur. *)
Theorem odd_modulus_attempt_outcome (self : t qsfQuantumComputer.t)
    (N a : Z) (w w1 : world) :
  3 <= N -> Z.odd N = true ->
  randint 2 (N - 1) w = (Ok a, w1) -> Z.gcd a N = 1 ->
  exists r,
    fst (qsfQuantumComputer.simulate_period_finding
           (quantum_computer self) a N w1) = Ok (Some r)
    /\ fst (quantum_symmetry_factor self N w)
       = Ok (if Z.odd r || (a ^ (r / 2) mod N =? N - 1) then None
             else Some (Z.gcd (a ^ (r / 2) mod N - 1) N,
                        Z.gcd (a ^ (r / 2) mod N + 1) N)).
Proof.
  intros HN Hodd Hdraw Hcop.
  unfold quantum_symmetry_factor.
  rewrite (quantum_symmetry_factor_via_run _ self N a w w1 Hdraw).
  apply randint_range in Hdraw as [Ha _].
  rewrite (gcd_pos_Zgcd a N) by lia. rewrite Hcop, Z.ltb_irrefl.
  destruct (simulated_period_estimate self a N w1) as [lines ->].
  rewrite simulate_period_finding_run.
  pose proof (find_range (fun r => a ^ r mod N =? 1) _ 1 N eq_refl) as Hfind.
  pose proof (coprime_period_exists a N ltac:(lia) Hcop) as Hex.
  destruct (find (fun r => a ^ r mod N =? 1) (range 1 N)) as [r |];
    [| contradiction].
  destruct Hfind as (Hr & Hhit & Hleast). apply Z.eqb_eq in Hhit.
  exists r. split; [reflexivity |].
  rewrite <- Zeven_mod, Z.negb_even.
  destruct (Z.odd r) eqn:Hoddr; [reflexivity |].
  assert (Heven : Z.even r = true) by (rewrite <- Z.negb_odd, Hoddr; reflexivity).
  pose proof (even_halves r Heven) as Hhalf.
  rewrite extract_symmetry_run by lia.
  set (x := a ^ (r / 2) mod N) in *.
  assert (Hx1 : (x =? 1) = false) by (apply Hleast; lia).
  rewrite Hx1. cbn [orb].
  destruct (Z.eqb_spec x (N - 1)) as [Hm | Hm]; [reflexivity |].
  rewrite !gcd_pos_Zgcd by lia.
  assert (Hx : 0 <= x < N) by (apply Z.mod_pos_bound; lia).
  apply Z.eqb_neq in Hx1.
  pose proof (Zgcd_pred_lt_modulus x N ltac:(lia) Hx Hx1) as Hf1.
  pose proof (Zgcd_succ_lt_modulus x N ltac:(lia) Hx Hm) as Hf2.
  assert (Hprod : Z.gcd (x - 1) N * Z.gcd (x + 1) N = N).
  { apply Zgcd_split_odd_modulus; [lia | |].
    - rewrite Zodd_mod in Hodd. apply Z.eqb_eq in Hodd. exact Hodd.
    - apply half_power_squares_to_one; [lia | exact Heven | exact Hhit]. }
  cbv beta iota. rewrite Hprod, Z.eqb_refl.
  destruct (Z.eqb_spec (Z.gcd (x - 1) N) 0) as [Hz | _]; [lia |].
  destruct (Z.eqb_spec (Z.gcd (x + 1) N) 0) as [Hz | _]; [lia |].
  reflexivity.
Qed.

(** ** The driver *)

(** For [N >= 3] the driver returns normally and its last line is the
    report: either the failure line, or the factors line, and then the
    two numbers it names are proper factors of [N] with product [N]. *)
Theorem run_qsf_factorization_reports (N : Z) (w : world) :
  3 <= N ->
  exists lines line,
    run_qsf_factorization N w = (Ok tt, printed (lines ++ [line]) (drawn w))
    /\ (line = ("Failed to find factors for " ++ str N ++ ".")%string
        \/ exists f1 f2,
             line = ("Factors of " ++ str N ++ " are: "
                     ++ str_pair (f1, f2))%string
             /\ f1 * f2 = N /\ 1 < f1 < N /\ 1 < f2 < N).
Proof.
  intros HN. unfold run_qsf_factorization, bind.
  destruct (simulated_attempt_returns qsf_algorithm N w HN)
    as (v & lines & Hrun).
  rewrite Hrun. destruct v as [[f1 f2] |]; unfold print;
    rewrite printed_printed; exists lines; eexists;
    (split; [reflexivity |]).
  - right. exists f1, f2. split; [reflexivity |].
    exact (attempt_sound qsf_algorithm N f1 f2 w _ HN Hrun).
  - left. reflexivity.
Qed.

(** For [N <= 2] the driver prints neither report: the [ValueError] of
    the empty draw passes through it, with nothing printed. *)
Theorem run_qsf_factorization_raises (N : Z) (w : world) :
  N <= 2 -> run_qsf_factorization N w = (Raised ValueError, w).
Proof.
  intros HN. unfold run_qsf_factorization, bind, quantum_symmetry_factor.
  rewrite (quantum_symmetry_factor_via_no_draw _ qsf_algorithm N w w ValueError).
  - reflexivity.
  - apply randint_empty. lia.
Qed.

(** ** The order found is the period of the powers *)

Lemma power_of_unit_residue (x N q : Z) :
  2 <= N -> 0 <= q -> x mod N = 1 -> x ^ q mod N = 1.
Proof.
  intros HN Hq Hx. revert q Hq.
  apply (natlike_ind (fun q => x ^ q mod N = 1)).
  - rewrite Z.pow_0_r. apply Z.mod_small. lia.
  - intros q Hq IH. rewrite Z.pow_succ_r by assumption.
    rewrite Zmult_mod, Hx, IH. apply Z.mod_small. lia.
Qed.

(** The [r] that [simulate_period_finding(a, N)] returns is the period
    of [k |-> a^k mod N]: shifting the exponent by [r] changes nothing,
    and the exponents whose power is 1 are exactly the multiples of [r]. *)
Theorem found_order_is_the_period (self : qsfQuantumComputer.t)
    (a N r : Z) (w : world) :
  2 <= N ->
  fst (qsfQuantumComputer.simulate_period_finding self a N w) = Ok (Some r) ->
  (forall k, 0 <= k -> a ^ (k + r) mod N = a ^ k mod N)
  /\ (forall k, 0 <= k -> a ^ k mod N = 1 <-> (r | k)).
Proof.
  intros HN. rewrite simulate_period_finding_run.
  pose proof (find_range (fun r => a ^ r mod N =? 1) _ 1 N eq_refl) as Hfind.
  destruct (find (fun r => a ^ r mod N =? 1) (range 1 N)) as [r0 |];
    cbn [fst]; [| discriminate].
  intros [= <-]. destruct Hfind as (Hr & Hhit & Hleast).
  apply Z.eqb_eq in Hhit.
  assert (Hmult : forall q s, 0 <= q -> 0 <= s ->
            a ^ (r0 * q + s) mod N = a ^ s mod N).
  { intros q s Hq Hs.
    rewrite Z.pow_add_r, Z.pow_mul_r by lia.
    rewrite Zmult_mod, (power_of_unit_residue (a ^ r0) N q HN Hq Hhit).
    rewrite Z.mul_1_l. apply Zmod_mod. }
  split.
  - intros k Hk. replace (k + r0) with (r0 * 1 + k) by lia.
    apply Hmult; lia.
  - intros k Hk.
    pose proof (Z.div_mod k r0 ltac:(lia)) as Hdm.
    pose proof (Z.mod_pos_bound k r0 ltac:(lia)) as Hs.
    assert (Hq : 0 <= k / r0) by (apply Z.div_pos; lia).
    split.
    + intros Hone. rewrite Hdm, Hmult in Hone by lia.
      destruct (Z.eq_dec (k mod r0) 0) as [Hz | Hnz].
      * apply Z.mod_divide; [lia | exact Hz].
      * specialize (Hleast (k mod r0) ltac:(lia)).
        apply Z.eqb_neq in Hleast. contradiction.
    + intros Hdiv. apply Z.mod_divide in Hdiv; [| lia].
      rewrite Hdm, Hdiv, Hmult by lia.
      rewrite Z.pow_0_r. apply Z.mod_small. lia.
Qed.

(** ** The further properties at concrete inputs *)

Lemma extract_symmetry_candidates_divide_7_4_15 :
  2 <= 15
  /\ extract_symmetry qsf_algorithm 7 4 15 (fresh_world 0)
     = (Ok (Some 3, Some 5), fresh_world 0)
  /\ (3 | 15) /\ (5 | 15).
Proof.
  split; [lia |]. split; [reflexivity |].
  destruct (extract_symmetry_candidates_divide qsf_algorithm 7 4 15
              (fresh_world 0) (fresh_world 0) (Some 3) (Some 5)
              ltac:(lia) eq_refl) as (_ & [[Hnone _] | Hsome]).
  - discriminate Hnone.
  - destruct Hsome as (f1 & f2 & [= <-] & [= <-] & Hd1 & Hd2 & _).
    split; assumption.
Defined.

Lemma extract_symmetry_splits_odd_modulus_7_4_15 :
  3 <= 15 /\ Z.odd 15 = true /\ 0 <= 4 /\ Z.even 4 = true
  /\ 7 ^ 4 mod 15 = 1 /\ 7 ^ (4 / 2) mod 15 <> 1
  /\ 7 ^ (4 / 2) mod 15 <> 15 - 1
  /\ exists f1 f2,
       extract_symmetry qsf_algorithm 7 4 15 (fresh_world 0)
       = (Ok (Some f1, Some f2), fresh_world 0)
       /\ f1 * f2 = 15 /\ 1 < f1 < 15 /\ 1 < f2 < 15.
Proof.
  split; [lia |]. split; [reflexivity |]. split; [lia |].
  split; [reflexivity |]. split; [reflexivity |].
  split; [vm_compute; discriminate |]. split; [vm_compute; discriminate |].
  apply (extract_symmetry_splits_odd_modulus qsf_algorithm 7 4 15
           (fresh_world 0)).
  - lia.
  - reflexivity.
  - lia.
  - reflexivity.
  - reflexivity.
  - vm_compute. discriminate.
  - vm_compute. discriminate.
Defined.

Lemma simulate_period_finding_finds_iff_coprime_15 :
  2 <= 15
  /\ Z.gcd 6 15 <> 1
  /\ fst (qsfQuantumComputer.simulate_period_finding qsf 6 15 (fresh_world 0))
     = Ok None.
Proof.
  split; [lia |]. split; [vm_compute; discriminate |].
  apply (proj2 (simulate_period_finding_finds_iff_coprime qsf 6 15
                  (fresh_world 0) ltac:(lia))).
  vm_compute. discriminate.
Defined.

Lemma drawing_a_divisor_factors_15_3 :
  2 <= 3 <= 15 - 1 /\ (3 | 15)
  /\ quantum_symmetry_factor qsf_algorithm 15 (fresh_world 1)
     = (Ok (Some (3, 15 / 3)), drawn (fresh_world 1)).
Proof.
  split; [lia |].
  assert (Hdiv : (3 | 15)) by (exists 5; reflexivity).
  split; [exact Hdiv |].
  apply (proj1 (drawing_a_divisor_factors
                  (extract_symmetry qsf_algorithm) qsf_algorithm 15 3
                  ltac:(lia) Hdiv) (fresh_world 1) (drawn (fresh_world 1))).
  reflexivity.
Defined.

Lemma simulated_attempt_effects_15 :
  3 <= 15
  /\ rng_pos (snd (quantum_symmetry_factor qsf_algorithm 15 (fresh_world 5)))
     = 1%nat.
Proof.
  split; [lia |].
  exact (proj1 (proj2 (proj2 (simulated_attempt_effects qsf_algorithm 15
                                (fresh_world 5) ltac:(lia))))).
Defined.

Lemma prime_7 : Z.prime 7.
Proof.
  split; [lia |]. intros n Hn [k Hk].
  assert (Hcases : n = 2 \/ n = 3 \/ n = 4 \/ n = 5 \/ n = 6) by lia.
  destruct Hcases as [-> | [-> | [-> | [-> | ->]]]]; lia.
Defined.

Lemma prime_modulus_attempt_fails_7 :
  3 <= 7 /\ Z.prime 7
  /\ fst (quantum_symmetry_factor qsf_algorithm 7 (fresh_world 1)) = Ok None.
Proof.
  split; [lia |]. split; [exact prime_7 |].
  apply (prime_modulus_attempt_fails qsf_algorithm 7 (fresh_world 1)).
  - lia.
  - exact prime_7.
Defined.

Lemma odd_modulus_attempt_outcome_15_7 :
  3 <= 15 /\ Z.odd 15 = true
  /\ randint 2 (15 - 1) (fresh_world 5) = (Ok 7, drawn (fresh_world 5))
  /\ Z.gcd 7 15 = 1
  /\ exists r,
       fst (qsfQuantumComputer.simulate_period_finding
              (quantum_computer qsf_algorithm) 7 15 (drawn (fresh_world 5)))
       = Ok (Some r)
       /\ fst (quantum_symmetry_factor qsf_algorithm 15 (fresh_world 5))
          = Ok (if Z.odd r || (7 ^ (r / 2) mod 15 =? 15 - 1) then None
                else Some (Z.gcd (7 ^ (r / 2) mod 15 - 1) 15,
                           Z.gcd (7 ^ (r / 2) mod 15 + 1) 15)).
Proof.
  split; [lia |]. split; [reflexivity |]. split; [reflexivity |].
  split; [reflexivity |].
  apply (odd_modulus_attempt_outcome qsf_algorithm 15 7 (fresh_world 5)
           (drawn (fresh_world 5))).
  - lia.
  - reflexivity.
  - reflexivity.
  - reflexivity.
Defined.

Lemma run_qsf_factorization_reports_15 :
  3 <= 15
  /\ exists lines line,
       run_qsf_factorization 15 (fresh_world 5)
       = (Ok tt, printed (lines ++ [line]) (drawn (fresh_world 5)))
       /\ (line = ("Failed to find factors for " ++ str 15 ++ ".")%string
           \/ exists f1 f2,
                line = ("Factors of " ++ str 15 ++ " are: "
                        ++ str_pair (f1, f2))%string
                /\ f1 * f2 = 15 /\ 1 < f1 < 15 /\ 1 < f2 < 15).
Proof.
  split; [lia |].
  apply (run_qsf_factorization_reports 15 (fresh_world 5)). lia.
Defined.

Lemma run_qsf_factorization_raises_at_2 :
  2 <= 2
  /\ run_qsf_factorization 2 (fresh_world 0)
     = (Raised ValueError, fresh_world 0).
Proof.
  split; [lia |].
  apply (run_qsf_factorization_raises 2 (fresh_world 0)). lia.
Defined.

Lemma found_order_is_the_period_7_15 :
  2 <= 15
  /\ fst (qsfQuantumComputer.simulate_period_finding qsf 7 15 (fresh_world 0))
     = Ok (Some 4)
  /\ (forall k, 0 <= k -> 7 ^ (k + 4) mod 15 = 7 ^ k mod 15).
Proof.
  split; [lia |]. split; [reflexivity |].
  exact (proj1 (found_order_is_the_period qsf 7 15 4 (fresh_world 0)
                  ltac:(lia) eq_refl)).
Defined.
